(** * tp_blockchain: proof-of-work chain, Merkle tree and majority root

    A shallow embedding of [tp_blockchain.py]: the [Block] and
    [Blockchain] classes, the [MerkleTree] class and the majority-root
    idiom of the replica tests, followed by the properties the
    specification states about them.

    Python values are represented as follows.
    - [str] is a [string]; a Rocq string is a byte sequence, read here as
      the UTF-8 encoding of the Python string, so that [s.encode()] is the
      identity and [+] is [String.append], written [+:+].
    - [int] is [Z] (unbounded); list indices and loop counters are [nat].
    - the timestamp of a block is of any type that an f-string can write
      ([PyStr]), the payload is a [str] as at every call in the file.
    - an object with mutable fields is a record, a method that mutates
      [self] is a function returning the new record; list objects that are
      shared between two names live in an explicit store ([MerkleTree]).
    - an exception is a [Raise] result; a [while] loop without a bound is
      run with fuel and yields [OutOfFuel] when the fuel is spent. *)

From Stdlib Require Import ssreflect ZArith NArith Lia Bool Ascii List Sorted.
From Stdlib Require String.
From stdpp Require Import base list strings.
Import ListNotations.

#[local] Set Warnings "-rewrite-rw".

(** ** SHA-256, as [hashlib.sha256(bytes).hexdigest()] *)

Module SHA256.
Local Open Scope N_scope.

Definition mask32 : N := 0xffffffff.
Definition add32 (x y : N) : N := N.land (x + y) mask32.
Definition not32 (x : N) : N := N.lxor x mask32.
Definition rotr (n x : N) : N :=
  N.lor (N.shiftr x n) (N.land (N.shiftl x (32 - n)) mask32).

Definition ch (x y z : N) : N := N.lxor (N.land x y) (N.land (not32 x) z).
Definition maj (x y z : N) : N :=
  N.lxor (N.lxor (N.land x y) (N.land x z)) (N.land y z).
Definition bsig0 (x : N) : N := N.lxor (N.lxor (rotr 2 x) (rotr 13 x)) (rotr 22 x).
Definition bsig1 (x : N) : N := N.lxor (N.lxor (rotr 6 x) (rotr 11 x)) (rotr 25 x).
Definition ssig0 (x : N) : N := N.lxor (N.lxor (rotr 7 x) (rotr 18 x)) (N.shiftr x 3).
Definition ssig1 (x : N) : N := N.lxor (N.lxor (rotr 17 x) (rotr 19 x)) (N.shiftr x 10).

(** The constants are fractional parts of roots of the first primes:
    32 bits of the cube roots of the first 64 primes for the rounds, 32
    bits of the square roots of the first 8 primes for the initial value. *)
Definition is_prime (n : nat) : bool :=
  (1 <? n)%nat && forallb (λ d, negb (n mod d =? 0)%nat) (seq 2 (n - 2)).

Definition first_primes (count : nat) : list N :=
  map N.of_nat (firstn count (filter (λ n, is_prime n = true) (seq 0 320))).

(** The integer part of the cube root of [n], one bit at a time. *)
Definition cube_root (n : N) : N :=
  fold_left (λ r bit, let r' := r + N.shiftl 1 bit in
                      if r' * r' * r' <=? n then r' else r)
            (map N.of_nat (rev (seq 0 36))) 0.

Definition round_constants : list N :=
  Eval vm_compute in
    map (λ p, N.land (cube_root (N.shiftl p 96)) mask32) (first_primes 64).

(** The eight working variables a..h, also the chaining value. *)
Record regs := Regs { ra : N; rb : N; rc : N; rd : N; re : N; rf : N; rg : N; rh : N }.

Definition regs_of_list (ws : list N) : regs :=
  Regs (nth 0 ws 0) (nth 1 ws 0) (nth 2 ws 0) (nth 3 ws 0)
       (nth 4 ws 0) (nth 5 ws 0) (nth 6 ws 0) (nth 7 ws 0).

Definition initial_regs : regs :=
  Eval vm_compute in
    regs_of_list (map (λ p, N.land (N.sqrt (N.shiftl p 64)) mask32) (first_primes 8)).

(** Padding: the byte 0x80, zero bytes up to 56 modulo 64, then the bit
    length on eight bytes, most significant first. *)
Definition bytes_of (s : string) : list N :=
  map (fun c => N_of_ascii c) (String.list_ascii_of_string s).

Definition be_bytes (count : nat) (x : N) : list N :=
  map (fun i => N.land (N.shiftr x (8 * N.of_nat i)) 0xff) (rev (seq 0 count)).

Definition pad (msg : list N) : list N :=
  let len := N.of_nat (length msg) in
  let zeros := N.to_nat ((119 - len mod 64) mod 64) in
  msg ++ [0x80] ++ repeat 0 zeros ++ be_bytes 8 (8 * len).

Fixpoint words_of (bytes : list N) : list N :=
  match bytes with
  | b0 :: b1 :: b2 :: b3 :: rest =>
      (N.shiftl b0 24 + N.shiftl b1 16 + N.shiftl b2 8 + b3) :: words_of rest
  | _ => []
  end.

(** Message schedule.  [recent] holds the words computed so far, newest
    first, so that W(t-2), W(t-7), W(t-15) and W(t-16) sit at offsets
    1, 6, 14 and 15. *)
Fixpoint extend_schedule (count : nat) (recent : list N) : list N :=
  match count with
  | O => recent
  | S count' =>
      let w := add32 (add32 (ssig1 (nth 1 recent 0)) (nth 6 recent 0))
                     (add32 (ssig0 (nth 14 recent 0)) (nth 15 recent 0)) in
      extend_schedule count' (w :: recent)
  end.

Definition schedule (block : list N) : list N :=
  rev (extend_schedule 48 (rev block)).

Definition round (r : regs) (kw : N * N) : regs :=
  let t1 := add32 (add32 (add32 (rh r) (bsig1 (re r))) (ch (re r) (rf r) (rg r)))
                  (add32 (fst kw) (snd kw)) in
  let t2 := add32 (bsig0 (ra r)) (maj (ra r) (rb r) (rc r)) in
  Regs (add32 t1 t2) (ra r) (rb r) (rc r) (add32 (rd r) t1) (re r) (rf r) (rg r).

Definition compress (cv : regs) (block : list N) : regs :=
  let r := fold_left round (combine round_constants (schedule block)) cv in
  Regs (add32 (ra cv) (ra r)) (add32 (rb cv) (rb r)) (add32 (rc cv) (rc r))
       (add32 (rd cv) (rd r)) (add32 (re cv) (re r)) (add32 (rf cv) (rf r))
       (add32 (rg cv) (rg r)) (add32 (rh cv) (rh r)).

(** One 16-word block per unit of fuel; [digest_words] gives as many
    units as there are blocks. *)
Fixpoint absorb (blocks : nat) (cv : regs) (ws : list N) : regs :=
  match blocks with
  | O => cv
  | S blocks' => absorb blocks' (compress cv (firstn 16 ws)) (skipn 16 ws)
  end.

Definition digest_words (s : string) : list N :=
  let ws := words_of (pad (bytes_of s)) in
  let r := absorb (Nat.div (length ws) 16) initial_regs ws in
  [ra r; rb r; rc r; rd r; re r; rf r; rg r; rh r].

Definition hex_digit (x : N) : ascii :=
  nth (N.to_nat x) (String.list_ascii_of_string "0123456789abcdef") "0"%char.

Definition hex_word (w : N) : list ascii :=
  map (fun i => hex_digit (N.land (N.shiftr w (4 * N.of_nat i)) 0xf)) (rev (seq 0 8)).

Definition hexdigest (s : string) : string :=
  String.string_of_list_ascii (concat (map hex_word (digest_words s))).

End SHA256.

(** [hashlib.sha256(s.encode()).hexdigest()] *)
Definition sha256 (s : string) : string := SHA256.hexdigest s.

(** ** Python values *)

(** What an f-string writes for a value: [f"{x}"]. *)
Class PyStr (A : Type) := py_str : A → string.

Definition str_of_digit (d : Z) : string :=
  String (ascii_of_nat (48 + Z.to_nat d)) "".

(** Decimal digits of a non-negative integer, [fuel] bounding their number. *)
Fixpoint str_of_nonneg (fuel : nat) (z : Z) : string :=
  match fuel with
  | O => ""
  | S fuel' =>
      if (z <? 10)%Z then str_of_digit z
      else str_of_nonneg fuel' (z / 10) +:+ str_of_digit (z mod 10)
  end.

(** [str(z)] for an [int]. *)
Definition str_of_int (z : Z) : string :=
  if (z <? 0)%Z then "-" +:+ str_of_nonneg (S (Z.to_nat (Z.log2 (- z)))) (- z)
  else str_of_nonneg (S (Z.to_nat (Z.log2 z))) z.

#[export] Instance PyStr_int : PyStr Z := str_of_int.
#[export] Instance PyStr_str : PyStr string := λ s, s.

(** [s * n]: [n] copies of [s], none when [n <= 0].  Python takes [n]
    as an index: for [n >= 2^63] or [n < -2^63] it raises
    [OverflowError], which is left out here; the properties that depend
    on it are stated for [n] within these bounds.  Memory is taken to be
    sufficient for the result. *)
Definition py_repeat (s : string) (n : Z) : string :=
  Nat.iter (Z.to_nat n) (String.append s) "".

(** [s.startswith(t)] *)
Fixpoint startswith (s t : string) {struct t} : bool :=
  match t, s with
  | EmptyString, _ => true
  | String _ _, EmptyString => false
  | String b t', String a s' => if Ascii.eqb a b then startswith s' t' else false
  end.

(** Number of leading ['0'] characters of a digest. *)
Fixpoint leading_zeros (s : string) : nat :=
  match s with
  | String "0" s' => S (leading_zeros s')
  | _ => O
  end.

(** The exceptions met in the code, and the outcome of a call: a value,
    an exception, or the fuel of a loop spent before the loop came to its
    end. *)
Inductive exn := IndexError | ValueError.

Inductive result (A : Type) : Type :=
  | Ok (a : A)
  | Raise (e : exn)
  | OutOfFuel.
Arguments Ok {A} a.
Arguments Raise {A} e.
Arguments OutOfFuel {A}.

#[export] Instance result_ret : MRet result := @Ok.
#[export] Instance result_bind : MBind result := λ A B f m,
  match m with
  | Ok a => f a
  | Raise e => Raise e
  | OutOfFuel => OutOfFuel
  end.

(** [l[-1]], [l[0]] and [l[i]] for [i >= 0] *)
Definition py_last {A} (l : list A) : result A :=
  match last l with Some x => Ok x | None => Raise IndexError end.

Definition py_first {A} (l : list A) : result A :=
  match l with x :: _ => Ok x | [] => Raise IndexError end.

Definition py_index {A} (l : list A) (i : nat) : result A :=
  match l !! i with Some x => Ok x | None => Raise IndexError end.

(** ** class Block *)

Section Ledger.
Context {T : Type} `{PyStr T}.

Record Block := mkBlock {
  timestamp : T;
  data : string;
  previous_hash : string;
  nonce : Z;
  hash : string
}.

(** [Block.calculate_hash] *)
Definition calculate_hash (b : Block) : string :=
  let to_hash :=
    py_str (timestamp b) +:+ py_str (data b) +:+ previous_hash b +:+ py_str (nonce b) in
  sha256 to_hash.

(** [Block.__init__], with the timestamp given by the caller. *)
Definition Block_init (data : string) (previous_hash : string) (timestamp : T) : Block :=
  let self := mkBlock timestamp data previous_hash 0 "" in
  mkBlock timestamp data previous_hash 0 (calculate_hash self).

(** One turn of the loop of [mine_block]. *)
Definition mine_step (b : Block) : Block :=
  let b1 := mkBlock (timestamp b) (data b) (previous_hash b) (nonce b + 1) (hash b) in
  mkBlock (timestamp b1) (data b1) (previous_hash b1) (nonce b1) (calculate_hash b1).

(** [Block.mine_block]; [fuel] bounds the number of turns of the loop. *)
Fixpoint mine_block (fuel : nat) (difficulty : Z) (b : Block) : result Block :=
  let target := py_repeat "0" difficulty in
  if startswith (hash b) target then Ok b
  else match fuel with
       | O => OutOfFuel
       | S fuel' => mine_block fuel' difficulty (mine_step b)
       end.

(** [Block.update_data] *)
Definition update_data (new_data : string) (b : Block) : Block :=
  let b1 := mkBlock (timestamp b) new_data (previous_hash b) (nonce b) (hash b) in
  let b2 := mkBlock (timestamp b1) (data b1) (previous_hash b1) 0 (hash b1) in
  mkBlock (timestamp b2) (data b2) (previous_hash b2) (nonce b2) (calculate_hash b2).

(** ** class Blockchain *)

Record Blockchain := mkBlockchain {
  difficulty : Z;
  chain : list Block
}.

(** [Blockchain.create_genesis_block] *)
Definition create_genesis_block (fuel : nat) (difficulty : Z) (timestamp : T)
  : result Block :=
  let genesis := Block_init "Genesis Block" "0" timestamp in
  mine_block fuel difficulty genesis.

(** [Blockchain.__init__] *)
Definition Blockchain_init (fuel : nat) (difficulty : Z) (genesis_timestamp : T)
  : result Blockchain :=
  genesis ← create_genesis_block fuel difficulty genesis_timestamp;
  Ok (mkBlockchain difficulty [genesis]).

(** [Blockchain.add_block] *)
Definition add_block (fuel : nat) (data : string) (timestamp : T) (bc : Blockchain)
  : result Blockchain :=
  last_block ← py_last (chain bc);
  let new_block := Block_init data (hash last_block) timestamp in
  new_block ← mine_block fuel (difficulty bc) new_block;
  Ok (mkBlockchain (difficulty bc) (chain bc ++ [new_block])).

(** The three tests [is_chain_valid] makes on block [i], in its order. *)
Definition block_ok (difficulty : Z) (prev current : Block) : bool :=
  if negb (String.eqb (hash current) (calculate_hash current)) then false
  else if negb (String.eqb (previous_hash current) (hash prev)) then false
  else if negb (startswith (hash current) (py_repeat "0" difficulty)) then false
  else true.

(** The loop of [is_chain_valid] from index [i] on, [prev] being block
    [i - 1] and [rest] the blocks from index [i]. *)
Fixpoint is_chain_valid_from (difficulty : Z) (i : nat) (prev : Block)
    (rest : list Block) : bool * option nat :=
  match rest with
  | [] => (true, None)
  | current :: rest' =>
      if block_ok difficulty prev current
      then is_chain_valid_from difficulty (S i) current rest'
      else (false, Some i)
  end.

(** [Blockchain.is_chain_valid] *)
Definition is_chain_valid (bc : Blockchain) : bool * option nat :=
  match chain bc with
  | [] => (true, None)
  | genesis :: rest => is_chain_valid_from (difficulty bc) 1 genesis rest
  end.

(** [bc.chain[k].update_data(new_data)], the blocks of a chain being
    distinct objects. *)
Definition chain_update_data (k : nat) (new_data : string) (bc : Blockchain)
  : result Blockchain :=
  b ← py_index (chain bc) k;
  Ok (mkBlockchain (difficulty bc) (<[k := update_data new_data b]> (chain bc))).

End Ledger.

Arguments Block T : clear implicits.
Arguments Blockchain T : clear implicits.

(** ** class MerkleTree *)

(** [build_tree] keeps the list it is reducing both in [current_level]
    and as the last entry of [self.tree], and appends to it in place: the
    list objects are therefore kept in a store, addressed by position, and
    [self.leaves], [self.tree] and [current_level] hold addresses. *)

Definition alloc (v : list string) (objs : list (list string))
  : nat * list (list string) :=
  (length objs, objs ++ [v]).

Definition read (objs : list (list string)) (ref : nat) : list string :=
  default [] (objs !! ref).

(** [ref.append(x)] *)
Definition append_at (ref : nat) (x : string) (objs : list (list string))
  : list (list string) :=
  alter (λ v, v ++ [x]) ref objs.

Record tree_state := mkTreeState {
  objs : list (list string);
  leaves_ref : nat;
  tree_refs : list nat
}.

(** The [for i in range(0, len(current_level), 2)] loop: the next level. *)
Fixpoint hash_pairs (level : list string) : result (list string) :=
  match level with
  | [] => Ok []
  | [_] => Raise IndexError
  | lhs :: rhs :: rest =>
      let combined := lhs +:+ rhs in
      let new_hash := sha256 combined in
      next_level ← hash_pairs rest;
      Ok (new_hash :: next_level)
  end.

(** The [while len(current_level) > 1] loop. *)
Fixpoint build_loop (fuel : nat) (current_level : nat) (st : tree_state)
  : result tree_state :=
  if 1 <? length (read (objs st) current_level) then
    match fuel with
    | O => OutOfFuel
    | S fuel' =>
        objs1 ← (if negb (length (read (objs st) current_level) mod 2 =? 0)
                 then x ← py_last (read (objs st) current_level);
                      Ok (append_at current_level x (objs st))
                 else Ok (objs st));
        next ← hash_pairs (read objs1 current_level);
        let '(next_level, objs2) := alloc next objs1 in
        build_loop fuel' next_level
          (mkTreeState objs2 (leaves_ref st) (tree_refs st ++ [next_level]))
    end
  else Ok st.

(** [MerkleTree.build_tree]; a level of [n > 1] entries is followed by one
    of [(n + 1) / 2] entries, so [n] turns are more than the loop takes. *)
Definition build_tree (st : tree_state) : result tree_state :=
  let '(current_level, objs1) := alloc (read (objs st) (leaves_ref st)) (objs st) in
  build_loop (length (read (objs st) (leaves_ref st))) current_level
    (mkTreeState objs1 (leaves_ref st) [current_level]).

(** A tree as seen once its constructor has returned. *)
Record MerkleTree := mkMerkleTree {
  leaves : list string;
  tree : list (list string)
}.

(** [MerkleTree.__init__] *)
Definition MerkleTree_init (leaves : list string) : result MerkleTree :=
  let '(self_leaves, objs0) := alloc leaves [] in
  let st0 := mkTreeState objs0 self_leaves [] in
  st ← (if bool_decide (leaves ≠ []) then build_tree st0 else Ok st0);
  Ok (mkMerkleTree (read (objs st) (leaves_ref st))
                   (map (read (objs st)) (tree_refs st))).

(** [MerkleTree.compute_merkle_root] *)
Definition compute_merkle_root (mt : MerkleTree) : result string :=
  if bool_decide (tree mt = []) then Ok ""
  else top ← py_last (tree mt); py_first top.

(** The root of the tree built on [leaves]. *)
Definition merkle_root (leaves : list string) : result string :=
  mt ← MerkleTree_init leaves; compute_merkle_root mt.

(** The same levels without a store: each level as it stands when the
    loop leaves it, that is with its last entry repeated when it had an
    odd number of entries, more than one. *)
Definition pad_odd (level : list string) : result (list string) :=
  if negb (length level mod 2 =? 0)
  then x ← py_last level; Ok (level ++ [x])
  else Ok level.

(** The body of the loop, from one level to the next. *)
Definition reduce_level (level : list string) : result (list string) :=
  padded ← pad_odd level; hash_pairs padded.

Fixpoint levels_from (fuel : nat) (level : list string)
  : result (list (list string)) :=
  if 1 <? length level then
    match fuel with
    | O => OutOfFuel
    | S fuel' =>
        padded ← pad_odd level;
        next ← hash_pairs padded;
        rest ← levels_from fuel' next;
        Ok (padded :: rest)
    end
  else Ok [level].

(** The reduction in the words of the specification, written without
    the functions above: the entries of a level are taken two by two and
    each pair gives the digest of its two entries put end to end; a level
    with an odd number of entries has its last entry duplicated first. *)
Fixpoint digests_of_pairs (level : list string) : list string :=
  match level with
  | x :: y :: rest => sha256 (x +:+ y) :: digests_of_pairs rest
  | _ => []
  end.

Definition with_last_duplicated (level : list string) : list string :=
  match last level with
  | Some x => level ++ [x]
  | None => level
  end.

Definition reduced_as_specified (level : list string) : list string :=
  digests_of_pairs
    (if Nat.odd (length level) then with_last_duplicated level else level).

(** The levels from [level] up to the level of one entry, each as it is
    before any duplication; [fuel] bounds their number. *)
Fixpoint levels_as_specified (fuel : nat) (level : list string)
  : list (list string) :=
  level ::
  (if 1 <? length level then
     match fuel with
     | O => []
     | S fuel' => levels_as_specified fuel' (reduced_as_specified level)
     end
   else []).

(** The single entry of the last of these levels. *)
Fixpoint root_as_specified (fuel : nat) (level : list string) : option string :=
  if 1 <? length level then
    match fuel with
    | O => None
    | S fuel' => root_as_specified fuel' (reduced_as_specified level)
    end
  else head level.

(** A level as the tree holds it: with its last entry duplicated when it
    has an odd number of entries, more than one. *)
Definition stored_level (level : list string) : list string :=
  if (1 <? length level) && Nat.odd (length level)
  then with_last_duplicated level
  else level.

(** ** Majority root: [max(set(roots), key=roots.count)] *)

(** [roots.count(x)] *)
Definition py_count (roots : list string) (x : string) : nat :=
  count_occ String.string_dec roots x.

(** [max(items, key=key)]: the first item is the candidate, and a later
    item replaces it when its key is strictly greater. *)
Definition keep_max {A} (key : A → nat) (maxitem item : A) : A :=
  if key maxitem <? key item then item else maxitem.

Definition py_max {A} (key : A → nat) (items : list A) : result A :=
  match items with
  | [] => Raise ValueError
  | first :: rest => Ok (fold_left (keep_max key) rest first)
  end.

(** Iterating [set(roots)] yields each distinct root once, in an order
    fixed by the hash table of the set and not by [roots]. *)
Definition set_iteration (roots order : list string) : Prop :=
  NoDup order ∧ ∀ x, x ∈ order ↔ x ∈ roots.

(** [max(set(roots), key=roots.count)], [order] being the order in which
    [set(roots)] is iterated. *)
Definition majority_root (order roots : list string) : result string :=
  py_max (py_count roots) order.

(** The selection in the words of the specification: the highest count,
    and among the roots that reach it the one met first in [roots]. *)
Definition highest_count (roots : list string) : nat :=
  foldr Nat.max 0 (map (py_count roots) roots).

Definition majority_root_first_seen (roots : list string) : option string :=
  find (λ x, py_count roots x =? highest_count roots) roots.

(** ** Chains reached through the interface, and sample data *)

(** [built bc]: [bc] is what [Blockchain(difficulty, genesis_timestamp)]
    followed by calls of [add_block] leaves, every mining loop having
    come to its end. *)
Inductive built {T : Type} `{PyStr T} : Blockchain T → Prop :=
  | built_init fuel difficulty genesis_timestamp bc :
      Blockchain_init fuel difficulty genesis_timestamp = Ok bc →
      built bc
  | built_add fuel data timestamp bc bc' :
      built bc →
      add_block fuel data timestamp bc = Ok bc' →
      built bc'.

(** [for (data, ts) in calls: bc.add_block(data, ts)] *)
Fixpoint add_blocks {T : Type} `{PyStr T} (fuel : nat) (calls : list (string * T))
    (bc : Blockchain T) : result (Blockchain T) :=
  match calls with
  | [] => Ok bc
  | (data, timestamp) :: calls' =>
      bc' ← add_block fuel data timestamp bc;
      add_blocks fuel calls' bc'
  end.

(** The chain of the replica tests at difficulty 1: genesis at 1000, then
    ["Transaction 0"] and ["Transaction 1"] at 1001 and 1002. *)
Definition sample_genesis : Block Z :=
  mkBlock 1000%Z "Genesis Block" "0" 14
    "0bf82cfa114b148595a23a18c16e1c63d020d7e77c0486479937a3cd3a7a6776".

Definition sample_block1 : Block Z :=
  mkBlock 1001%Z "Transaction 0" (hash sample_genesis) 11
    "0e17c2f76051aa5465dd366d513963e8b3aceb4e33aa2547d7923a6733b01ff1".

Definition sample_block2 : Block Z :=
  mkBlock 1002%Z "Transaction 1" (hash sample_block1) 6
    "0d64dabdbe2959156996307344471129111bf370b606ca3296684c9afa9a21a5".

Definition sample_chain : Blockchain Z :=
  mkBlockchain 1 [sample_genesis; sample_block1; sample_block2].

(** A block whose payload was assigned directly, [b.data = "Tampered"],
    the stored digest being left as it was. *)
Definition stale_block : Block Z :=
  mkBlock 1001%Z "Tampered" (hash sample_genesis) 11 (hash sample_block1).

(** The leaves of [test_compute_merkle_root], the last one left out. *)
Definition sample_leaves : list string :=
  [sha256 "Block 0"; sha256 "Block 1"; sha256 "Block 2"].

(** ** The functions around the classes *)

(** [range(start, stop)] *)
Definition py_range (start stop : Z) : list Z :=
  map (λ i, start + Z.of_nat i)%Z (seq 0 (Z.to_nat (stop - start))).

Section Replicas.
Context {T : Type} `{PyStr T}.

(** The block [b] with nonce [n] and the digest of its fields: what the
    loop of [mine_block] holds once the nonce has reached [n]. *)
Definition with_nonce (b : Block T) (n : Z) : Block T :=
  let b1 := mkBlock (timestamp b) (data b) (previous_hash b) n (hash b) in
  mkBlock (timestamp b1) (data b1) (previous_hash b1) (nonce b1) (calculate_hash b1).

(** [for i, (b1, b2) in enumerate(zip(...)): if b1.hash != b2.hash:
    diffs.append(i)], the count starting at [i]. *)
Fixpoint diffs_from (i : nat) (pairs : list (Block T * Block T)) : list nat :=
  match pairs with
  | [] => []
  | (b1, b2) :: pairs' =>
      if negb (String.eqb (hash b1) (hash b2))
      then i :: diffs_from (S i) pairs'
      else diffs_from (S i) pairs'
  end.

(** [compare_blockchains]: the list [diffs] that it reports. *)
Definition compare_blockchains (bc1 bc2 : Blockchain T) : list nat :=
  diffs_from 0 (zip (chain bc1) (chain bc2)).

(** The rows of [compare_blockchains_table]: index, the two digests and
    whether they are equal, for [i in range(len(bc1.chain))]. *)
Fixpoint table_rows (i : nat) (blocks1 : list (Block T)) (chain2 : list (Block T))
  : result (list (nat * string * string * bool)) :=
  match blocks1 with
  | [] => Ok []
  | b1 :: blocks1' =>
      let hash1 := hash b1 in
      b2 ← py_index chain2 i;
      let hash2 := hash b2 in
      let equal := String.eqb hash1 hash2 in
      rows ← table_rows (S i) blocks1' chain2;
      Ok ((i, hash1, hash2, equal) :: rows)
  end.

Definition compare_blockchains_table (bc1 bc2 : Blockchain T)
  : result (list (nat * string * string * bool)) :=
  table_rows 0 (chain bc1) (chain bc2).

(** [MerkleTree([block.hash for block in bc.chain]).compute_merkle_root()],
    as in [compare_merkle_roots] and the replica tests. *)
Definition chain_root (bc : Blockchain T) : result string :=
  let hashes := map hash (chain bc) in
  mt ← MerkleTree_init hashes;
  compute_merkle_root mt.

(** [roots = [root of bc for bc in blockchains]] *)
Definition replica_roots (blockchains : list (Blockchain T)) : result (list string) :=
  mapM chain_root blockchains.

(** The rejection test of [test_detection_corruption_integrity]:
    [not valid or root != majority_root]. *)
Definition replica_rejected (bc : Blockchain T) (root majority : string) : bool :=
  negb (is_chain_valid bc).1 || negb (String.eqb root majority).

(** The replicas seen by that test, each with whether it is accepted;
    [order] is the order in which [set(roots)] is iterated. *)
Definition integrity_check (order : list string) (blockchains : list (Blockchain T))
  : result (list bool) :=
  roots ← replica_roots blockchains;
  majority ← majority_root order roots;
  Ok (zip_with (λ bc root, negb (replica_rejected bc root majority)) blockchains roots).

(** [b.data = new_data; b.hash = b.calculate_hash()], the nonce being
    kept, as [test_detection_corruption_integrity] corrupts a block. *)
Definition assign_data_rehash (new_data : string) (b : Block T) : Block T :=
  let b1 := mkBlock (timestamp b) new_data (previous_hash b) (nonce b) (hash b) in
  mkBlock (timestamp b1) (data b1) (previous_hash b1) (nonce b1) (calculate_hash b1).

(** One turn of the loop by which [test_blockchains_5_levels] mines the
    blocks after a corrupted one again: block [i] is linked to block
    [i - 1], its nonce set to 0, its digest recomputed, and it is mined. *)
Definition remine_at (fuel : nat) (difficulty : Z) (blocks : list (Block T)) (i : nat)
  : result (list (Block T)) :=
  prev ← (if i =? 0 then py_last blocks else py_index blocks (i - 1));
  b ← py_index blocks i;
  let b1 := mkBlock (timestamp b) (data b) (hash prev) (nonce b) (hash b) in
  let b2 := mkBlock (timestamp b1) (data b1) (previous_hash b1) 0 (hash b1) in
  let b3 := mkBlock (timestamp b2) (data b2) (previous_hash b2) (nonce b2)
                    (calculate_hash b2) in
  b4 ← mine_block fuel difficulty b3;
  Ok (<[i := b4]> blocks).

(** [for i in indices: ...] *)
Fixpoint remine_loop (fuel : nat) (difficulty : Z) (indices : list nat)
    (blocks : list (Block T)) : result (list (Block T)) :=
  match indices with
  | [] => Ok blocks
  | i :: indices' =>
      blocks' ← remine_at fuel difficulty blocks i;
      remine_loop fuel difficulty indices' blocks'
  end.

(** The corruption of block 1 followed by the mining of the blocks after
    it, as in [test_blockchains_5_levels]; [local_difficulty] is the
    variable [difficulty] of the test. *)
Definition corrupt_and_remine (fuel : nat) (local_difficulty : Z) (new_data : string)
    (bc : Blockchain T) : result (Blockchain T) :=
  corrupted_block ← py_index (chain bc) 1;
  corrupted_block ← mine_block fuel local_difficulty (update_data new_data corrupted_block);
  let blocks := <[1 := corrupted_block]> (chain bc) in
  blocks ← remine_loop fuel local_difficulty (seq 2 (length blocks - 2)) blocks;
  Ok (mkBlockchain (difficulty bc) blocks).

End Replicas.

(** The rounds of [simulate_decentralized_blockchains]: for each [i], the
    block ["Transaction i"] is added to every replica in turn. *)
Fixpoint simulate_rounds (fuel : nat) (timestamps : list Z) (indices : list Z)
    (blockchains : list (Blockchain Z)) : result (list (Blockchain Z)) :=
  match indices with
  | [] => Ok blockchains
  | i :: indices' =>
      let data := "Transaction " +:+ py_str i in
      ts ← py_index timestamps (Z.to_nat i);
      blockchains' ← mapM (add_block fuel data ts) blockchains;
      simulate_rounds fuel timestamps indices' blockchains'
  end.

(** [simulate_decentralized_blockchains] *)
Definition simulate_decentralized_blockchains (fuel : nat) (num_instances : Z)
    (difficulty : Z) (num_blocks : Z) (genesis_timestamp : Z)
  : result (list (Blockchain Z)) :=
  let timestamps := map (λ i, genesis_timestamp + i)%Z (py_range 1 (num_blocks + 1)) in
  blockchains ← mapM (λ _, Blockchain_init fuel difficulty genesis_timestamp)
                     (py_range 0 num_instances);
  simulate_rounds fuel timestamps (py_range 0 num_blocks) blockchains.

(** Three replicas as [test_detection_corruption_integrity] leaves them
    at difficulty 1: block 2 of the second one has been given another
    payload by assignment. *)
Definition corrupted_chain : Blockchain Z :=
  mkBlockchain 1
    (<[2 := assign_data_rehash "Corruption malveillante" sample_block2]>
       (chain sample_chain)).

Definition sample_replicas : list (Blockchain Z) :=
  [sample_chain; corrupted_chain; sample_chain].

Definition sample_root : string :=
  "0fdcc9cc2d085563dcd769aaf859beb343dd8da34681392c6d3ace9a7f6ee9a6".

Definition corrupted_root : string :=
  "0c4f4d9e07729a3c520ca4d4fa349f139dc560edc4d613b8649d7b60f2e998cf".

(** ** Predicates on chains *)

(** The stored digest is the digest of the fields and meets the target. *)
Definition sound_block {T : Type} `{PyStr T} (d : Z) (b : Block T) : Prop :=
  hash b = calculate_hash b ∧ startswith (hash b) (py_repeat "0" d) = true.

(** Each block of [rest] names the digest of the block before it, [prev]
    coming before the first. *)
Fixpoint linked {T : Type} (prev : Block T) (rest : list (Block T)) : Prop :=
  match rest with
  | [] => True
  | current :: rest' => previous_hash current = hash prev ∧ linked current rest'
  end.

(** * Properties *)

(** The digest agrees with the published test vectors. *)
Example sha256_empty :
  sha256 "" = "e3b0c44298fc1c149afbf4c8996fb92427ae41e4649b934ca495991b7852b855".
Proof. vm_compute. reflexivity. Qed.

Example sha256_abc :
  sha256 "abc" = "ba7816bf8f01cfea414140de5dae2223b00361a396177a9cb410ff61f20015ad".
Proof. vm_compute. reflexivity. Qed.

Example sha256_genesis_preimage :
  sha256 "1000Genesis Block00"
  = "707311d911f15387dce16a6d689106fa09d6215e09c8ce325f7715e1df4a2137".
Proof. vm_compute. reflexivity. Qed.

Example sha256_two_blocks :
  sha256 "aaaaaaaaaaaaaaaaaaaaaaaaaaaaaaaaaaaaaaaaaaaaaaaaaaaaaaaa"
  = "b35439a4ac6f0948b6d6f9e3c6af0f5f590ce20f1bde7090ef7970686ec6738a".
Proof. vm_compute. reflexivity. Qed.

Example sha256_pair_of_digests :
  sha256 ("9a80074454a08bd893afd50ad666803e636718850e57916174e535f504bed58d"
          +:+ "8eb412d817c7762cbd93dd64982b163e9b75ab1e4b584052b2c675247a7a9c22")
  = "46a6e92d4f285a0eae6c9a989b8c12ed520862e0f60b858dfbae95789106dfbe".
Proof. vm_compute. reflexivity. Qed.

Example str_of_int_samples :
  str_of_int 0 = "0" ∧ str_of_int 1000 = "1000" ∧ str_of_int (-57) = "-57".
Proof. by vm_compute. Qed.



#[global] Opaque sha256.

(** ** Strings *)

Lemma append_zero (s : string) : String.append "0" s = String "0" s.
Proof. reflexivity. Qed.

Lemma py_repeat_zeros (n : nat) :
  py_repeat "0" (Z.of_nat (S n)) = String "0" (py_repeat "0" (Z.of_nat n)).
Proof.
  unfold py_repeat. rewrite !Nat2Z.id. reflexivity.
Qed.

Lemma startswith_zeros_nat (n : nat) (s : string) :
  startswith s (py_repeat "0" (Z.of_nat n)) = true ↔ n ≤ leading_zeros s.
Proof.
  revert s. induction n as [|n IH]; intros s.
  - split; [lia | reflexivity].
  - rewrite py_repeat_zeros. destruct s as [|a s]; simpl.
    + split; [discriminate | lia].
    + destruct (Ascii.eqb a "0") eqn:E.
      * apply Ascii.eqb_eq in E. subst a. rewrite IH. lia.
      * split; [discriminate|].
        assert (a ≠ "0"%char) as Hne by (intros ->; rewrite Ascii.eqb_refl in E; discriminate).
        destruct a as [[] [] [] [] [] [] [] []]; simpl; try lia. congruence.
Qed.

Lemma py_repeat_to_nat (s : string) (n : Z) :
  py_repeat s n = py_repeat s (Z.of_nat (Z.to_nat n)).
Proof. unfold py_repeat. by rewrite Nat2Z.id. Qed.

(** [h.startswith('0' * d)] says that [h] has at least [d] leading zeros. *)
Lemma startswith_zeros (d : Z) (s : string) :
  startswith s (py_repeat "0" d) = true ↔ (d ≤ Z.of_nat (leading_zeros s))%Z.
Proof.
  rewrite py_repeat_to_nat startswith_zeros_nat. lia.
Qed.

Lemma startswith_zeros_le (d d' : Z) (s : string) :
  (d' ≤ d)%Z →
  startswith s (py_repeat "0" d) = true →
  startswith s (py_repeat "0" d') = true.
Proof. rewrite !startswith_zeros. lia. Qed.

(** ** Blocks *)

Section BlockProperties.
Context {T : Type} `{PyStr T}.
Implicit Types (b : Block T) (bc : Blockchain T).

Lemma mine_step_fields b :
  timestamp (mine_step b) = timestamp b
  ∧ data (mine_step b) = data b
  ∧ previous_hash (mine_step b) = previous_hash b
  ∧ nonce (mine_step b) = (nonce b + 1)%Z
  ∧ hash (mine_step b) = calculate_hash (mine_step b).
Proof. by rewrite /mine_step /calculate_hash /=. Qed.

(** The loop stops at once on a block that meets the target. *)
Lemma mine_block_met fuel D b :
  startswith (hash b) (py_repeat "0" D) = true → mine_block fuel D b = Ok b.
Proof. intros Hmet. destruct fuel; simpl; by rewrite Hmet. Qed.

Lemma mine_block_unmet fuel D b :
  startswith (hash b) (py_repeat "0" D) = false →
  mine_block (S fuel) D b = mine_block fuel D (mine_step b).
Proof. intros Hno. simpl. by rewrite Hno. Qed.

(** What holds of the block the loop stops on. *)
Lemma mine_block_inv fuel D b b' :
  mine_block fuel D b = Ok b' →
  startswith (hash b') (py_repeat "0" D) = true
  ∧ (hash b = calculate_hash b ∨ startswith (hash b) (py_repeat "0" D) = false →
     hash b' = calculate_hash b')
  ∧ timestamp b' = timestamp b
  ∧ data b' = data b
  ∧ previous_hash b' = previous_hash b
  ∧ (nonce b ≤ nonce b')%Z.
Proof.
  revert b. induction fuel as [|fuel IH]; intros b.
  - simpl. destruct (startswith (hash b) _) eqn:Hmet; [|discriminate].
    intros [= <-]. split_and!; try done; try lia.
    intros [?|?]; [done | congruence].
  - destruct (startswith (hash b) (py_repeat "0" D)) eqn:Hmet.
    + rewrite mine_block_met //. intros [= <-]. split_and!; try done; try lia.
      intros [?|?]; [done | congruence].
    + rewrite mine_block_unmet //. intros Hrun.
      destruct (IH _ Hrun) as (Hz & Hh & Ht & Hd & Hp & Hn).
      destruct (mine_step_fields b) as (Et & Ed & Ep & En & Eh).
      split_and!; try congruence; [|lia].
      intros _. apply Hh. by left.
Qed.

(** More fuel does not change the block the loop stops on. *)
Lemma mine_block_more_fuel fuel fuel' D b b' :
  mine_block fuel D b = Ok b' → fuel ≤ fuel' → mine_block fuel' D b = Ok b'.
Proof.
  revert fuel' b. induction fuel as [|fuel IH]; intros fuel' b.
  - simpl. destruct (startswith (hash b) _) eqn:Hmet; [|discriminate].
    intros [= <-] _. by apply mine_block_met.
  - destruct (startswith (hash b) (py_repeat "0" D)) eqn:Hmet.
    + rewrite !mine_block_met //.
    + rewrite mine_block_unmet //. intros Hrun Hle.
      destruct fuel' as [|fuel']; [lia|].
      rewrite mine_block_unmet //. apply IH; [done | lia].
Qed.

(** Mining again, at the same difficulty or a lower one, stops at once. *)
Lemma mine_block_twice fuel fuel' D D' b :
  (D' ≤ D)%Z →
  mine_block fuel D b ≫= mine_block fuel' D' = mine_block fuel D b.
Proof.
  intros Hle. destruct (mine_block fuel D b) as [b'| |] eqn:Hrun; try done.
  simpl. apply mine_block_met.
  apply mine_block_inv in Hrun as [Hz _]. by eapply startswith_zeros_le.
Qed.

(** The constructor stores the digest of the fields it has set. *)
Lemma Block_init_sound (data previous_hash : string) (timestamp : T) :
  hash (Block_init data previous_hash timestamp)
  = calculate_hash (Block_init data previous_hash timestamp).
Proof. reflexivity. Qed.

Lemma update_data_sound (p : string) b :
  hash (update_data p b) = calculate_hash (update_data p b).
Proof. reflexivity. Qed.

(** C7 (amended).  When [mine_block(D)] returns, the digest of the block
    has at least [D] leading ['0'] characters, and the timestamp, payload
    and previous_hash are those the block had; the digest equals a
    recomputation from the current fields provided it did so when the call
    was made, as it does after the constructor, [update_data] and
    [mine_block], or the loop made at least one turn. *)
Theorem mine_block_post (fuel : nat) (D : Z) (b b' : Block T) :
  mine_block fuel D b = Ok b' →
  (D ≤ Z.of_nat (leading_zeros (hash b')))%Z
  ∧ (hash b = calculate_hash b ∨ startswith (hash b) (py_repeat "0" D) = false →
     hash b' = calculate_hash b')
  ∧ timestamp b' = timestamp b
  ∧ data b' = data b
  ∧ previous_hash b' = previous_hash b.
Proof.
  intros Hrun. apply mine_block_inv in Hrun as (Hz & Hh & Ht & Hd & Hp & _).
  apply startswith_zeros in Hz. by split_and!.
Qed.

(** C10.  On a block whose digest already has at least [D] leading ['0']
    characters, [mine_block(D)] returns without a turn of its loop and
    leaves every field as it was, and so does [mine_block(D')] for
    [D' <= D]; hence mining a second time, at the same difficulty or a
    lower one, gives what mining once gave. *)
Theorem mine_block_idempotent (D : Z) (b : Block T) :
  (D ≤ Z.of_nat (leading_zeros (hash b)))%Z →
  mine_block 0 D b = Ok b
  ∧ (∀ fuel D', (D' ≤ D)%Z → mine_block fuel D' b = Ok b)
  ∧ (∀ fuel0 b0 fuel D', (D' ≤ D)%Z →
       mine_block fuel0 D b0 = Ok b →
       mine_block fuel0 D b0 ≫= mine_block fuel D' = mine_block fuel0 D b0).
Proof.
  intros Hz. apply startswith_zeros in Hz. split_and!.
  - by apply mine_block_met.
  - intros fuel D' Hle. apply mine_block_met. by eapply startswith_zeros_le.
  - intros fuel0 b0 fuel D' Hle _. by apply mine_block_twice.
Qed.

(** C8.  [update_data(p)] sets the payload to [p], the nonce to 0 and the
    digest to the recomputation from (timestamp, p, previous_hash, 0),
    without a mining loop; timestamp and previous_hash stay as they were,
    and in a chain that holds the block at index [k] the difficulty, the
    length and every block at another index stay as they were. *)
Theorem update_data_spec (p : string) (b : Block T) :
  data (update_data p b) = p
  ∧ nonce (update_data p b) = 0%Z
  ∧ hash (update_data p b)
    = sha256 (py_str (timestamp b) +:+ p +:+ previous_hash b +:+ "0")
  ∧ timestamp (update_data p b) = timestamp b
  ∧ previous_hash (update_data p b) = previous_hash b
  ∧ ∀ (bc : Blockchain T) (k : nat),
      chain bc !! k = Some b →
      ∃ bc', chain_update_data k p bc = Ok bc'
             ∧ difficulty bc' = difficulty bc
             ∧ length (chain bc') = length (chain bc)
             ∧ chain bc' !! k = Some (update_data p b)
             ∧ ∀ j, j ≠ k → chain bc' !! j = chain bc !! j.
Proof.
  split_and!; try reflexivity.
  intros bc k Hk. eexists. rewrite /chain_update_data /py_index Hk /=.
  split_and!; try reflexivity.
  - by rewrite length_insert.
  - apply list_lookup_insert_eq. by eapply lookup_lt_Some.
  - intros j Hj. by apply list_lookup_insert_ne.
Qed.

End BlockProperties.

(** ** Chains *)

Section ChainProperties.
Context {T : Type} `{PyStr T}.
Implicit Types (b prev current : Block T) (bc : Blockchain T) (rest : list (Block T)).

Lemma block_ok_true d prev current :
  block_ok d prev current = true ↔
  sound_block d current ∧ previous_hash current = hash prev.
Proof.
  rewrite /block_ok /sound_block.
  destruct (String.eqb_spec (hash current) (calculate_hash current)) as [Hh|Hh]; simpl;
    [|split; [discriminate | tauto]].
  destruct (String.eqb_spec (previous_hash current) (hash prev)) as [Hp|Hp]; simpl;
    [|split; [discriminate | tauto]].
  destruct (startswith (hash current) _); simpl; split; try tauto; try discriminate.
Qed.

(** The loop answers [(True, None)] or [(False, j)], nothing else. *)
Lemma is_chain_valid_from_shape d i prev rest :
  is_chain_valid_from d i prev rest = (true, None)
  ∨ ∃ j, is_chain_valid_from d i prev rest = (false, Some j) ∧ i ≤ j < i + length rest.
Proof.
  revert i prev. induction rest as [|current rest IH]; intros i prev; simpl; [by left|].
  destruct (block_ok d prev current).
  - destruct (IH (S i) current) as [->|(j & -> & Hj)]; [by left|].
    right. exists j. split; [done | lia].
  - right. exists i. split; [done | lia].
Qed.

Lemma is_chain_valid_from_true d i prev rest :
  is_chain_valid_from d i prev rest = (true, None) ↔
  Forall (sound_block d) rest ∧ linked prev rest.
Proof.
  revert i prev. induction rest as [|current rest IH]; intros i prev; simpl.
  - split; [by split | done].
  - destruct (block_ok d prev current) eqn:Hok.
    + apply block_ok_true in Hok as [Hs Hp]. rewrite IH Forall_cons. tauto.
    + split; [discriminate|]. intros [[Hs Hr]%Forall_cons [Hp Hl]].
      assert (block_ok d prev current = true) by (apply block_ok_true; tauto).
      congruence.
Qed.

Lemma last_cons_default {A} (x : A) (l : list A) :
  List.last (x :: l) x = List.last l x ∧ ∀ y, List.last (x :: l) y = List.last l x.
Proof.
  revert x. induction l as [|z l IH]; intros x; [done|].
  split; [done|]. intros y. destruct (IH z) as [_ IHz].
  change (List.last (x :: z :: l) y) with (List.last (z :: l) y).
  rewrite IHz. symmetry. apply IHz.
Qed.

(** The loop over [l1 ++ l2]: over [l1], then, if that found nothing,
    over [l2] with the last block met as predecessor. *)
Lemma is_chain_valid_from_app d i prev l1 l2 :
  is_chain_valid_from d i prev (l1 ++ l2) =
  if (is_chain_valid_from d i prev l1).1
  then is_chain_valid_from d (i + length l1) (List.last l1 prev) l2
  else is_chain_valid_from d i prev l1.
Proof.
  revert i prev. induction l1 as [|current l1 IH]; intros i prev.
  - simpl. by rewrite Nat.add_0_r.
  - change ((current :: l1) ++ l2) with (current :: (l1 ++ l2)).
    cbn [is_chain_valid_from]. destruct (block_ok d prev current); [|done].
    rewrite IH. destruct (last_cons_default current l1) as [_ ->].
    by replace (i + length (current :: l1)) with (S i + length l1) by (simpl; lia).
Qed.

Lemma last_stdpp_default {A} (x : A) (l : list A) :
  last (x :: l) = Some (List.last l x).
Proof.
  revert x. induction l as [|z l IH]; intros x; [done|].
  rewrite last_cons IH. destruct (last_cons_default z l) as [_ Hd].
  by rewrite -(Hd x).
Qed.

Lemma linked_snoc prev rest b :
  linked prev rest → previous_hash b = hash (List.last rest prev) →
  linked prev (rest ++ [b]).
Proof.
  revert prev. induction rest as [|current rest IH]; intros prev; simpl.
  - done.
  - intros [Hp Hl] Hb. split; [done|]. apply IH; [done|].
    destruct (last_cons_default current rest) as [_ Hd]. by rewrite -(Hd prev).
Qed.

Lemma linked_lookup prev rest i a b :
  linked prev rest →
  (prev :: rest) !! i = Some a → (prev :: rest) !! S i = Some b →
  previous_hash b = hash a.
Proof.
  revert prev i. induction rest as [|current rest IH]; intros prev i Hl Ha Hb.
  - destruct i; discriminate.
  - destruct Hl as [Hp Hl]. destruct i as [|i].
    + simpl in Ha, Hb. congruence.
    + by eapply (IH current i).
Qed.

(** What the constructor and [add_block] maintain. *)
Lemma built_inv bc :
  built bc →
  ∃ genesis rest, chain bc = genesis :: rest
    ∧ Forall (sound_block (difficulty bc)) (genesis :: rest)
    ∧ linked genesis rest.
Proof.
  induction 1 as [fuel d ts bc Hinit | fuel data ts bc bc' Hb IH Hadd].
  - rewrite /Blockchain_init /create_genesis_block in Hinit.
    destruct (mine_block fuel d _) as [g| |] eqn:Hrun; try discriminate.
    simpl in Hinit. injection Hinit as <-. exists g, []. simpl.
    apply mine_block_inv in Hrun as (Hz & Hh & _).
    split_and!; try done. apply Forall_singleton. split; [|done].
    apply Hh. by left.
  - destruct IH as (g & rest & Hc & Hs & Hl).
    rewrite /add_block /py_last Hc last_stdpp_default /= in Hadd.
    destruct (mine_block fuel (difficulty bc) _) as [nb| |] eqn:Hrun; try discriminate.
    simpl in Hadd. injection Hadd as <-. simpl.
    apply mine_block_inv in Hrun as (Hz & Hh & _ & _ & Hp & _).
    exists g, (rest ++ [nb]). split_and!; [done| |].
    + change (g :: rest ++ [nb]) with ((g :: rest) ++ [nb]).
      apply Forall_app. split; [done|]. apply Forall_singleton. split; [|done].
      apply Hh. by left.
    + by apply linked_snoc.
Qed.

(** C2.  In a chain made by the constructor and calls of [add_block],
    each mining loop having come to its end, every block after the first
    names the digest of the block before it, every stored digest is the
    digest of the block's fields and has at least [difficulty] leading
    ['0'] characters, and [is_chain_valid()] answers [(True, None)]. *)
Theorem built_chain_valid (bc : Blockchain T) :
  built bc →
  (∀ i prev current,
     chain bc !! i = Some prev → chain bc !! S i = Some current →
     previous_hash current = hash prev)
  ∧ (∀ i b, chain bc !! i = Some b →
       hash b = calculate_hash b
       ∧ (difficulty bc ≤ Z.of_nat (leading_zeros (hash b)))%Z)
  ∧ is_chain_valid bc = (true, None).
Proof.
  intros (g & rest & Hc & Hs & Hl)%built_inv. split_and!.
  - intros i prev current. rewrite Hc. by apply linked_lookup.
  - intros i b Hb. rewrite Hc in Hb.
    rewrite Forall_lookup in Hs. destruct (Hs i b Hb) as [Hh Hz].
    split; [done|]. by apply startswith_zeros.
  - rewrite /is_chain_valid Hc. apply is_chain_valid_from_true.
    by apply Forall_cons in Hs as [_ Hs].
Qed.

End ChainProperties.

(** ** Tampering with a block of a valid chain *)

#[local] Arguments update_data : simpl never.

Section TamperProperties.
Context {T : Type} `{PyStr T}.
Implicit Types (b prev current : Block T) (bc : Blockchain T) (rest : list (Block T)).

(** The tests on a block that [update_data] has just rewritten come down
    to the test of the target. *)
Lemma block_ok_updated d prev b p :
  previous_hash b = hash prev →
  block_ok d prev (update_data p b)
  = startswith (hash (update_data p b)) (py_repeat "0" d).
Proof.
  intros Hp. rewrite /block_ok -update_data_sound String.eqb_refl /=.
  rewrite Hp String.eqb_refl /=. by destruct (startswith _ _).
Qed.

(** The tests on the block that follows the rewritten one come down to
    a comparison of the new digest with the old one. *)
Lemma block_ok_successor d b b' current :
  block_ok d b current = true →
  block_ok d b' current = String.eqb (hash b') (hash b).
Proof.
  intros [[Hh Hz] Hp]%block_ok_true.
  rewrite /block_ok -Hh String.eqb_refl Hz Hp /= String.eqb_sym.
  by destruct (String.eqb _ _).
Qed.

Lemma is_chain_valid_from_cons_true d i prev current rest :
  is_chain_valid_from d i prev (current :: rest) = (true, None) →
  block_ok d prev current = true
  ∧ is_chain_valid_from d (S i) current rest = (true, None).
Proof. simpl. by destruct (block_ok d prev current). Qed.

(** The loop from a rewritten block on. *)
Lemma is_chain_valid_from_updated d i prev b p rest :
  is_chain_valid_from d i prev (b :: rest) = (true, None) →
  is_chain_valid_from d i prev (update_data p b :: rest) =
  if negb (startswith (hash (update_data p b)) (py_repeat "0" d))
  then (false, Some i)
  else if bool_decide (rest ≠ []) && negb (String.eqb (hash (update_data p b)) (hash b))
       then (false, Some (S i))
       else (true, None).
Proof.
  intros [Hok Hrest]%is_chain_valid_from_cons_true.
  apply block_ok_true in Hok as [_ Hp].
  cbn [is_chain_valid_from]. rewrite block_ok_updated //.
  destruct (startswith _ _); [|done]. simpl.
  destruct rest as [|current rest]; [done|].
  apply is_chain_valid_from_cons_true in Hrest as [Hok Hrest].
  cbn [is_chain_valid_from]. rewrite (block_ok_successor d b) //.
  rewrite bool_decide_true //=. by destruct (String.eqb _ _).
Qed.

(** What [is_chain_valid()] answers once [update_data] has rewritten
    block [k >= 1] of a valid chain: [k] when the new digest misses the
    target; otherwise [k + 1] when a block follows and the digest has
    changed; otherwise the chain is found valid. *)
Lemma tamper_outcome bc k p b :
  is_chain_valid bc = (true, None) →
  1 ≤ k → chain bc !! k = Some b →
  ∃ bc', chain_update_data k p bc = Ok bc'
    ∧ is_chain_valid bc' =
      if negb (startswith (hash (update_data p b)) (py_repeat "0" (difficulty bc)))
      then (false, Some k)
      else if bool_decide (S k < length (chain bc))
              && negb (String.eqb (hash (update_data p b)) (hash b))
           then (false, Some (S k))
           else (true, None).
Proof.
  intros Hvalid Hk Hb. eexists. rewrite /chain_update_data /py_index Hb /=.
  split; [done|]. rewrite /is_chain_valid /= in Hvalid |- *.
  destruct (chain bc) as [|g rest] eqn:Hc; [done|].
  destruct k as [|k]; [lia|]. simpl in Hb |- *.
  pose proof (lookup_lt_Some _ _ _ Hb) as Hlt.
  rewrite insert_take_drop //.
  rewrite -(take_drop_middle rest k b Hb) in Hvalid.
  rewrite is_chain_valid_from_app in Hvalid.
  rewrite is_chain_valid_from_app.
  destruct (is_chain_valid_from_shape (difficulty bc) 1 g (take k rest))
    as [Hpre|(j & Hpre & _)]; rewrite Hpre in Hvalid |- *; cbn [fst] in Hvalid |- *;
    [|done].
  rewrite length_take_le in Hvalid |- *; [lia|].
  rewrite is_chain_valid_from_updated //.
  destruct (startswith _ _); [|done]. simpl.
  assert (bool_decide (drop (S k) rest ≠ []) = bool_decide (S (S k) < S (length rest)))
    as ->; [|done].
  apply bool_decide_ext. rewrite -length_zero_iff_nil length_drop. lia.
Qed.

(** C1 (amended).  In a chain that [is_chain_valid()] finds valid, once
    [update_data] has replaced the payload of block [k], [1 <= k <=
    length - 1], [is_chain_valid()] answers [(False, k)] provided the
    recomputed digest of that block does not start with [difficulty]
    characters ['0']. *)
Theorem tamper_detected (bc : Blockchain T) (k : nat) (p : string) (b : Block T) :
  is_chain_valid bc = (true, None) →
  1 ≤ k → chain bc !! k = Some b →
  startswith (hash (update_data p b)) (py_repeat "0" (difficulty bc)) = false →
  ∃ bc', chain_update_data k p bc = Ok bc'
         ∧ is_chain_valid bc' = (false, Some k).
Proof.
  intros Hvalid Hk Hb Hmiss.
  destruct (tamper_outcome bc k p b Hvalid Hk Hb) as (bc' & Hupd & Hres).
  exists bc'. split; [done|]. by rewrite Hres Hmiss.
Qed.

End TamperProperties.

(** ** Merkle trees *)

Section MerkleProperties.
Implicit Types (level next leaves : list string) (store : list (list string)).

Lemma pair_induction {A} (P : list A → Prop) :
  P [] → (∀ x, P [x]) → (∀ x y l, P l → P (x :: y :: l)) → ∀ l, P l.
Proof.
  intros Hnil Hone Hstep l.
  cut (P l ∧ ∀ x, P (x :: l)); [tauto|].
  induction l as [|y l [IH1 IH2]]; [by split|].
  split; [apply IH2|]. intros x. by apply Hstep.
Qed.

Lemma mod2_SS (n : nat) : S (S n) mod 2 = n mod 2.
Proof. replace (S (S n)) with (n + 1 * 2) by lia. apply Nat.Div0.mod_add. Qed.

Lemma mod2_S (n : nat) :
  (n mod 2 = 0 ∧ S n mod 2 = 1) ∨ (n mod 2 = 1 ∧ S n mod 2 = 0).
Proof.
  induction n as [|n IH]; [by left|].
  rewrite mod2_SS. tauto.
Qed.

(** A level with an even number of entries is paired without an index
    out of range, and the next level has half as many entries. *)
Lemma hash_pairs_even level :
  length level mod 2 = 0 →
  ∃ next, hash_pairs level = Ok next ∧ length level = 2 * length next.
Proof.
  induction level as [|x|x y l IH] using pair_induction; intros Hev.
  - by exists [].
  - discriminate.
  - destruct IH as (next & Hn & Hl).
    { by rewrite -mod2_SS. }
    exists (sha256 (x +:+ y) :: next). cbn [hash_pairs]. rewrite Hn /=.
    split; [done | lia].
Qed.

Lemma pad_odd_even level : length level mod 2 = 0 → pad_odd level = Ok level.
Proof. intros Hev. by rewrite /pad_odd Hev. Qed.

Lemma pad_odd_odd level :
  length level mod 2 ≠ 0 →
  ∃ x, py_last level = Ok x ∧ pad_odd level = Ok (level ++ [x]).
Proof.
  intros Hodd. rewrite /pad_odd /py_last.
  destruct (length level mod 2 =? 0) eqn:E; [apply Nat.eqb_eq in E; lia|].
  destruct (last level) as [x|] eqn:Hlast.
  - by exists x.
  - apply last_None in Hlast. by subst level.
Qed.

(** After padding, a level has an even number of entries. *)
Lemma pad_odd_total level :
  ∃ padded, pad_odd level = Ok padded
    ∧ length padded mod 2 = 0
    ∧ length level ≤ length padded ≤ S (length level).
Proof.
  destruct (decide (length level mod 2 = 0)) as [Hev|Hodd].
  - exists level. rewrite pad_odd_even //. split_and!; [done | done | lia | lia].
  - destruct (pad_odd_odd level Hodd) as (x & _ & ->).
    exists (level ++ [x]). rewrite length_app Nat.add_1_r. split; [done|].
    destruct (mod2_S (length level)) as [[? _]|[_ ?]]; [done|]. split; [done | lia].
Qed.

(** The body of the loop never raises. *)
Lemma reduce_level_total level :
  ∃ next, reduce_level level = Ok next ∧ 2 * length next ≤ S (length level).
Proof.
  rewrite /reduce_level.
  destruct (pad_odd_total level) as (padded & -> & Hev & Hlen).
  destruct (hash_pairs_even padded Hev) as (next & Hn & Hl).
  exists next. simpl. split; [done | lia].
Qed.

Lemma levels_from_unfold fuel level :
  levels_from fuel level =
  if 1 <? length level then
    match fuel with
    | O => OutOfFuel
    | S fuel' =>
        next ← reduce_level level;
        padded ← pad_odd level;
        rest ← levels_from fuel' next;
        Ok (padded :: rest)
    end
  else Ok [level].
Proof.
  destruct fuel; [done|]. cbn [levels_from]. rewrite /reduce_level.
  destruct (1 <? length level); [|done].
  by destruct (pad_odd level) as [padded| |]; simpl; [destruct (hash_pairs padded)| |].
Qed.

(** [length level] turns are enough for the loop. *)
Lemma levels_from_total fuel level :
  length level ≤ S fuel → ∃ lvls, levels_from fuel level = Ok lvls.
Proof.
  revert level. induction fuel as [|fuel IH]; intros level Hlen;
    rewrite levels_from_unfold.
  - replace (1 <? length level) with false by (symmetry; apply Nat.ltb_ge; lia).
    by eexists.
  - destruct (1 <? length level) eqn:Hgt; [|by eexists].
    apply Nat.ltb_lt in Hgt.
    destruct (reduce_level_total level) as (next & -> & Hn).
    destruct (pad_odd_total level) as (padded & -> & _). simpl.
    destruct (IH next) as (rest & ->); [lia|]. by eexists.
Qed.

Lemma levels_from_more_fuel fuel fuel' level lvls :
  levels_from fuel level = Ok lvls → fuel ≤ fuel' →
  levels_from fuel' level = Ok lvls.
Proof.
  revert fuel' level lvls. induction fuel as [|fuel IH]; intros fuel' level lvls;
    rewrite !levels_from_unfold; destruct (1 <? length level); try done.
  destruct fuel' as [|fuel']; [lia|]. intros Hrun Hle.
  destruct (reduce_level level) as [next| |]; try done.
  destruct (pad_odd level) as [padded| |]; try done. simpl in Hrun |- *.
  destruct (levels_from fuel next) as [rest| |] eqn:Hrest; try done.
  rewrite (IH fuel' next rest) //. lia.
Qed.

(** The first level listed is the level given, padded if the loop took it up. *)
Lemma levels_from_head fuel level lvls :
  levels_from fuel level = Ok lvls →
  ∃ first rest, lvls = first :: rest
    ∧ if 1 <? length level then pad_odd level = Ok first else first = level.
Proof.
  rewrite levels_from_unfold. destruct (1 <? length level).
  - destruct fuel as [|fuel]; [done|].
    destruct (reduce_level level) as [next| |]; try done.
    destruct (pad_odd level) as [padded| |]; try done. simpl.
    destruct (levels_from fuel next) as [rest| |]; try done.
    intros [= <-]. by exists padded, rest.
  - intros [= <-]. by exists level, [].
Qed.

(** *** The store against the levels *)

Lemma read_lookup store ref level : store !! ref = Some level → read store ref = level.
Proof. rewrite /read. by intros ->. Qed.

(** Appending in place to the object at [ref]. *)
Lemma append_at_insert store ref level x :
  store !! ref = Some level →
  append_at ref x store = <[ref := level ++ [x]]> store.
Proof.
  intros Href. apply list_eq. intros j. rewrite /append_at.
  destruct (decide (ref = j)) as [<-|Hne].
  - rewrite list_lookup_alter_eq Href list_lookup_insert_eq //.
    by eapply lookup_lt_Some.
  - by rewrite list_lookup_alter_ne // list_lookup_insert_ne.
Qed.

(** The padding step of the loop writes the padded level at [ref]. *)
Lemma pad_in_store store ref level :
  store !! ref = Some level →
  (if negb (length level mod 2 =? 0)
   then x ← py_last level; Ok (append_at ref x store)
   else Ok store)
  = (padded ← pad_odd level; Ok (<[ref := padded]> store)).
Proof.
  intros Href. rewrite /pad_odd.
  destruct (negb (length level mod 2 =? 0)); simpl.
  - destruct (py_last level) as [x| |]; simpl; try done.
    by rewrite (append_at_insert _ _ level).
  - by rewrite list_insert_id.
Qed.

Lemma levels_from_nonempty fuel level lvls :
  levels_from fuel level = Ok lvls → hd level lvls :: tail lvls = lvls.
Proof. by intros (first & rest & -> & _)%levels_from_head. Qed.

(** The loop on the store leaves, at the address it started from and at
    the addresses it has allocated, the levels of [levels_from]. *)
Lemma build_loop_spec fuel ref st level :
  objs st !! ref = Some level →
  build_loop fuel ref st =
  lvls ← levels_from fuel level;
  Ok (mkTreeState (<[ref := hd level lvls]> (objs st) ++ tail lvls)
                  (leaves_ref st)
                  (tree_refs st ++ seq (length (objs st)) (length (tail lvls)))).
Proof.
  revert ref st level. induction fuel as [|fuel IH]; intros ref st level Href.
  - cbn [build_loop levels_from]. rewrite (read_lookup _ _ level) //.
    destruct (1 <? length level); [done|]. simpl.
    rewrite list_insert_id // !app_nil_r. by destruct st.
  - cbn [build_loop levels_from]. rewrite (read_lookup _ _ level) //.
    destruct (1 <? length level); last first.
    { simpl. rewrite list_insert_id // !app_nil_r. by destruct st. }
    rewrite pad_in_store //.
    destruct (pad_odd level) as [padded| |]; try done. simpl.
    pose proof (lookup_lt_Some _ _ _ Href) as Hlt.
    rewrite (read_lookup _ _ padded); [by apply list_lookup_insert_eq|].
    destruct (hash_pairs padded) as [next| |]; try done. simpl.
    rewrite (IH _ _ next) /=.
    { rewrite lookup_app_r // Nat.sub_diag //. }
    destruct (levels_from fuel next) as [rest| |] eqn:Hrest; try done. simpl.
    apply levels_from_nonempty in Hrest.
    destruct rest as [|first rest]; [done|]. clear Hrest.
    rewrite length_app length_insert /=.
    rewrite -{1}(length_insert (objs st) ref padded).
    rewrite -{1}(Nat.add_0_r (length (<[ref:=padded]> (objs st)))).
    by rewrite insert_app_r /= -!app_assoc /= Nat.add_1_r.
Qed.

Lemma read_allocated store lvls :
  map (read (store ++ lvls)) (seq (length store) (length lvls)) = lvls.
Proof.
  revert store. induction lvls as [|level lvls IH]; intros store; [done|].
  cbn [length seq map]. f_equal.
  - apply read_lookup. by rewrite list_lookup_middle.
  - rewrite (assoc_L (++) store [level] lvls).
    specialize (IH (store ++ [level])).
    by rewrite length_app Nat.add_1_r in IH.
Qed.

(** The constructor in terms of the levels alone: [leaves] is the list
    given, [tree] the levels of [levels_from]. *)
Lemma MerkleTree_init_spec leaves :
  MerkleTree_init leaves =
  if bool_decide (leaves ≠ [])
  then lvls ← levels_from (length leaves) leaves; Ok (mkMerkleTree leaves lvls)
  else Ok (mkMerkleTree leaves []).
Proof.
  rewrite /MerkleTree_init /alloc /=.
  destruct (bool_decide (leaves ≠ [])); [|done].
  rewrite /build_tree /alloc /= /read /=.
  rewrite (build_loop_spec _ _ _ leaves) //=.
  destruct (levels_from (length leaves) leaves) as [lvls| |] eqn:Hl; try done.
  apply levels_from_nonempty in Hl.
  destruct lvls as [|first lvls]; [done|]. clear Hl.
  rewrite /= /read /=. do 3 f_equal.
  apply (read_allocated [leaves; first] lvls).
Qed.

(** The constructor returns a tree, whatever the leaves. *)
Lemma MerkleTree_init_total leaves : ∃ mt, MerkleTree_init leaves = Ok mt.
Proof.
  rewrite MerkleTree_init_spec. destruct (bool_decide (leaves ≠ [])); [|by eexists].
  destruct (levels_from_total (length leaves) leaves) as (lvls & ->); [lia|].
  by eexists.
Qed.

End MerkleProperties.

(** C4.  The root of the tree on four leaves is the digest of the two
    pair digests put end to end, each pair digest being the digest of its
    two leaves put end to end; the tree holds the three levels. *)
Theorem merkle_root_four (h0 h1 h2 h3 : string) :
  merkle_root [h0; h1; h2; h3]
  = Ok (sha256 (sha256 (h0 +:+ h1) +:+ sha256 (h2 +:+ h3)))
  ∧ MerkleTree_init [h0; h1; h2; h3]
    = Ok (mkMerkleTree [h0; h1; h2; h3]
            [ [h0; h1; h2; h3];
              [sha256 (h0 +:+ h1); sha256 (h2 +:+ h3)];
              [sha256 (sha256 (h0 +:+ h1) +:+ sha256 (h2 +:+ h3))] ]).
Proof. split; reflexivity. Qed.

(** The trees built on an odd number of leaves, more than one, and on
    the same leaves followed by a copy of the last one are the same. *)
Lemma padded_leaves_same_tree (hs : list string) (x : string) :
  length hs mod 2 ≠ 0 → 1 < length hs → py_last hs = Ok x →
  (mt ← MerkleTree_init hs; Ok (tree mt))
  = (mt ← MerkleTree_init (hs ++ [x]); Ok (tree mt)).
Proof.
  intros Hodd Hgt Hlast. rewrite !MerkleTree_init_spec.
  rewrite !bool_decide_true; [by destruct hs | by destruct hs|].
  destruct (levels_from_total (length hs) hs) as (lvls & Hl); [lia|].
  rewrite Hl /=.
  rewrite (levels_from_more_fuel (length hs) (length (hs ++ [x])) (hs ++ [x]) lvls) //;
    [|rewrite length_app /=; lia].
  move: Hl. rewrite !levels_from_unfold.
  assert (length (hs ++ [x]) mod 2 = 0) as Hev.
  { rewrite length_app Nat.add_1_r. by destruct (mod2_S (length hs)) as [[? _]|[_ ?]]. }
  replace (1 <? length hs) with true by (symmetry; apply Nat.ltb_lt; lia).
  replace (1 <? length (hs ++ [x])) with true
    by (symmetry; apply Nat.ltb_lt; rewrite length_app /=; lia).
  destruct (length hs) as [|n] eqn:Hn; [lia|].
  rewrite /reduce_level (pad_odd_even (hs ++ [x])) //.
  destruct (pad_odd_odd hs) as (y & Hy & ->); [by rewrite Hn|].
  by replace y with x by congruence.
Qed.

(** C6 (amended).  After construction on a list of leaves that is not
    empty, [leaves] is the list given, and level 0 of [tree] is that list
    when it has one entry or an even number of entries, and that list
    followed by a copy of its last entry when it has an odd number of
    entries, more than one. *)
Theorem level0_stored (hs : list string) :
  hs ≠ [] →
  ∃ mt x, MerkleTree_init hs = Ok mt
    ∧ py_last hs = Ok x
    ∧ leaves mt = hs
    ∧ tree mt !! 0
      = Some (if (1 <? length hs) && negb (length hs mod 2 =? 0)
              then hs ++ [x] else hs).
Proof.
  intros Hne. rewrite MerkleTree_init_spec bool_decide_true //.
  destruct (levels_from_total (length hs) hs) as (lvls & Hl); [lia|].
  rewrite Hl. cbn [mbind result_bind].
  apply levels_from_head in Hl as (first & rest & -> & Hfirst).
  destruct (last hs) as [x|] eqn:Hlast; [|by apply last_None in Hlast].
  exists (mkMerkleTree hs (first :: rest)), x. rewrite /py_last Hlast.
  split_and!; try done. cbn [tree lookup list_lookup]. f_equal.
  destruct (1 <? length hs); [|done]. cbn [andb].
  rewrite /pad_odd /py_last Hlast in Hfirst.
  destruct (negb (length hs mod 2 =? 0)); cbn [mbind result_bind] in Hfirst; congruence.
Qed.

(** C9.  On an empty list of leaves the constructor returns a tree with
    no level, the loop not being entered, and [compute_merkle_root()]
    returns the empty string. *)
Theorem empty_tree_root :
  MerkleTree_init [] = Ok (mkMerkleTree [] [])
  ∧ compute_merkle_root (mkMerkleTree [] []) = Ok ""
  ∧ merkle_root [] = Ok "".
Proof. by split_and!. Qed.

(** ** Majority root *)

Section MajorityProperties.
Context {A : Type} (key : A → nat).

(** [max] returns an item with the greatest key, the first such item in
    the order in which the items come. *)
Lemma fold_max_first (first : A) (rest : list A) :
  ∃ pre post,
    first :: rest = pre ++ fold_left (keep_max key) rest first :: post
    ∧ Forall (λ y, key y < key (fold_left (keep_max key) rest first)) pre
    ∧ Forall (λ y, key y ≤ key (fold_left (keep_max key) rest first)) post.
Proof.
  revert first. induction rest as [|y rest IH]; intros first.
  - exists [], []. by split_and!.
  - cbn [fold_left].
    replace (keep_max key first y) with (if key first <? key y then y else first)
      by done.
    destruct (key first <? key y) eqn:Hlt.
    + apply Nat.ltb_lt in Hlt.
      destruct (IH y) as (pre & post & Heq & Hpre & Hpost).
      set (best := fold_left (keep_max key) rest y) in *.
      exists (first :: pre), post. split_and!; [cbn [app]; by f_equal | | done].
      apply Forall_cons. split; [|done].
      destruct pre as [|z pre]; cbn [app] in Heq; injection Heq as Hy Hrest.
      * by rewrite -Hy.
      * apply Forall_cons in Hpre as [Hz _]. subst z. lia.
    + apply Nat.ltb_ge in Hlt.
      destruct (IH first) as (pre & post & Heq & Hpre & Hpost).
      set (best := fold_left (keep_max key) rest first) in *.
      destruct pre as [|z pre]; cbn [app] in Heq; injection Heq as Hfirst Hrest.
      * exists [], (y :: post). split_and!; [cbn [app]; by rewrite -Hfirst Hrest | done |].
        apply Forall_cons. split; [by rewrite -Hfirst | done].
      * apply Forall_cons in Hpre as [Hz Hpre]. subst z.
        exists (first :: y :: pre), post.
        split_and!; [cbn [app]; by rewrite Hrest | | done].
        apply Forall_cons. split; [done|]. apply Forall_cons. split; [lia | done].
Qed.

Lemma py_max_first (items : list A) :
  items ≠ [] →
  ∃ r pre post, py_max key items = Ok r
    ∧ items = pre ++ r :: post
    ∧ Forall (λ y, key y < key r) pre
    ∧ Forall (λ y, key y ≤ key r) post.
Proof.
  destruct items as [|first rest]; [done|]. intros _.
  destruct (fold_max_first first rest) as (pre & post & Heq & Hpre & Hpost).
  by eexists _, pre, post.
Qed.

End MajorityProperties.

Lemma py_count_elem (roots : list string) (x : string) :
  0 < py_count roots x ↔ x ∈ roots.
Proof.
  rewrite /py_count list_elem_of_In.
  split; intros Hx; by apply (count_occ_In String.string_dec).
Qed.

(** The highest count is the count of an item that no item exceeds. *)
Lemma foldr_max_bound (counts : list nat) (n : nat) :
  n ∈ counts → Forall (λ m, m ≤ n) counts → foldr Nat.max 0 counts = n.
Proof.
  induction counts as [|m counts IH]; [by intros ?%elem_of_nil|].
  intros Hin [Hm Hall]%Forall_cons. cbn [foldr].
  assert (foldr Nat.max 0 counts ≤ n) as Hle.
  { clear -Hall. induction Hall as [|k counts Hk _ IHc]; simpl; lia. }
  apply elem_of_cons in Hin as [->|Hin]; [lia|]. rewrite IH //. lia.
Qed.

(** C3 (amended).  For a list of roots that is not empty,
    [max(set(roots), key=roots.count)] returns a root of [roots] with the
    highest occurrence count; when several roots share that count it
    returns the one that comes first when the set of roots is iterated;
    when one root alone has that count, it is also the root that the
    scan of [roots] meets first among those with the highest count. *)
Theorem majority_root_highest (roots order : list string) :
  set_iteration roots order → roots ≠ [] →
  ∃ r pre post, majority_root order roots = Ok r
    ∧ r ∈ roots
    ∧ (∀ x, py_count roots x ≤ py_count roots r)
    ∧ order = pre ++ r :: post
    ∧ Forall (λ y, py_count roots y < py_count roots r) pre
    ∧ ((∀ x, x ≠ r → py_count roots x < py_count roots r) →
       majority_root_first_seen roots = Some r).
Proof.
  intros [Hnodup Hsame] Hne.
  assert (order ≠ []) as Hone.
  { destruct roots as [|x roots]; [done|]. intros ->.
    by apply (elem_of_nil x), Hsame, elem_of_cons; left. }
  destruct (py_max_first (py_count roots) order Hone)
    as (r & pre & post & Hmax & Heq & Hpre & Hpost).
  assert (r ∈ roots) as Hr.
  { apply Hsame. rewrite Heq. apply elem_of_app. right. by apply elem_of_cons; left. }
  assert (∀ x, py_count roots x ≤ py_count roots r) as Hall.
  { intros x. destruct (decide (x ∈ roots)) as [Hx|Hx].
    - apply Hsame in Hx. rewrite Heq in Hx.
      apply elem_of_app in Hx as [Hx|Hx].
      + rewrite Forall_forall in Hpre. specialize (Hpre x Hx). lia.
      + apply elem_of_cons in Hx as [->|Hx]; [done|].
        rewrite Forall_forall in Hpost. by apply Hpost.
    - assert (¬ 0 < py_count roots x) by by rewrite py_count_elem. lia. }
  exists r, pre, post. split_and!; try done.
  intros Huniq. rewrite /majority_root_first_seen.
  assert (highest_count roots = py_count roots r) as ->.
  { apply foldr_max_bound.
    - apply list_elem_of_fmap. by exists r.
    - apply Forall_fmap, Forall_forall. intros x _. apply Hall. }
  destruct (find _ roots) as [x|] eqn:Hfind.
  - apply find_some in Hfind as [_ Hx%Nat.eqb_eq].
    destruct (decide (x = r)) as [->|Hxr]; [done|].
    specialize (Huniq x Hxr). lia.
  - apply list_elem_of_In in Hr.
    pose proof (find_none _ _ Hfind r Hr) as Hno. simpl in Hno.
    by rewrite Nat.eqb_refl in Hno.
Qed.

(** ** Instances on the sample data *)

(** The sample chain is the one the constructor and two calls of
    [add_block] build at difficulty 1. *)
Lemma sample_chain_run :
  Blockchain_init 20 1 1000%Z
    ≫= add_blocks 20 [("Transaction 0", 1001%Z); ("Transaction 1", 1002%Z)]
  = Ok sample_chain.
Proof. vm_compute. reflexivity. Qed.

Lemma sample_chain_built : built sample_chain.
Proof.
  apply (built_add 20 "Transaction 1" 1002%Z
           (mkBlockchain 1 [sample_genesis; sample_block1])); [|by vm_compute].
  apply (built_add 20 "Transaction 0" 1001%Z (mkBlockchain 1 [sample_genesis]));
    [|by vm_compute].
  apply (built_init 20 1 1000%Z). by vm_compute.
Defined.

(** C1, counterexample.  At difficulty 1, the payload ["Tampered 15"]
    gives block 1 a digest that starts with ['0']: block 1 passes the three
    tests and [is_chain_valid()] answers [(False, 2)], not [(False, 1)]. *)
Lemma tamper_reported_at_successor :
  is_chain_valid sample_chain = (true, None)
  ∧ (bc' ← chain_update_data 1 "Tampered 15" sample_chain; Ok (is_chain_valid bc'))
    = Ok (false, Some 2).
Proof. split; vm_compute; reflexivity. Qed.

(** On the last block, such a payload leaves a chain that
    [is_chain_valid()] finds valid. *)
Example tamper_last_block_unreported :
  (bc' ← chain_update_data 2 "Tampered 33" sample_chain; Ok (is_chain_valid bc'))
  = Ok (true, None).
Proof. vm_compute. reflexivity. Qed.

(** At difficulty 0 every digest meets the target. *)
Example tamper_difficulty_zero :
  (bc ← Blockchain_init 0 0 1000%Z;
   bc ← add_block 0 "Transaction 0" 1001%Z bc;
   bc' ← chain_update_data 1 "Tampered" bc;
   Ok (is_chain_valid bc, is_chain_valid bc'))
  = Ok ((true, None), (true, None)).
Proof. vm_compute. reflexivity. Qed.

(** C1, instance: the payload ["Tampered 0"] on block 1 of the sample
    chain gives a digest that misses the target. *)
Lemma tamper_detected_witness :
  ∃ bc', chain_update_data 1 "Tampered 0" sample_chain = Ok bc'
         ∧ is_chain_valid bc' = (false, Some 1).
Proof.
  apply (tamper_detected sample_chain 1 "Tampered 0" sample_block1).
  - vm_compute. reflexivity.
  - apply le_n.
  - reflexivity.
  - vm_compute. reflexivity.
Defined.

(** C2, instance: the sample chain. *)
Lemma built_chain_valid_witness :
  built sample_chain
  ∧ (∀ i prev current,
       chain sample_chain !! i = Some prev → chain sample_chain !! S i = Some current →
       previous_hash current = hash prev)
  ∧ (∀ i b, chain sample_chain !! i = Some b →
       hash b = calculate_hash b
       ∧ (difficulty sample_chain ≤ Z.of_nat (leading_zeros (hash b)))%Z)
  ∧ is_chain_valid sample_chain = (true, None).
Proof.
  split; [exact sample_chain_built|].
  exact (built_chain_valid sample_chain sample_chain_built).
Defined.

(** C7, counterexample.  [mine_block(1)] returns at once on a block
    whose payload was assigned directly: the digest kept starts with ['0']
    and is not the digest of the current fields. *)
Lemma mine_block_keeps_stale_digest :
  mine_block 0 1 stale_block = Ok stale_block
  ∧ String.eqb (hash stale_block) (calculate_hash stale_block) = false.
Proof. split; vm_compute; reflexivity. Qed.

(** C7, instance: mining the second block of the sample chain. *)
Lemma mine_block_post_witness :
  mine_block 20 1 (Block_init "Transaction 0" (hash sample_genesis) 1001%Z)
  = Ok sample_block1
  ∧ (1 ≤ Z.of_nat (leading_zeros (hash sample_block1)))%Z
  ∧ hash sample_block1 = calculate_hash sample_block1
  ∧ timestamp sample_block1 = 1001%Z
  ∧ data sample_block1 = "Transaction 0"
  ∧ previous_hash sample_block1 = hash sample_genesis.
Proof.
  assert (mine_block 20 1 (Block_init "Transaction 0" (hash sample_genesis) 1001%Z)
          = Ok sample_block1) as Hrun by (vm_compute; reflexivity).
  split; [exact Hrun|].
  destruct (mine_block_post 20 1 _ _ Hrun) as (Hz & Hh & Ht & Hd & Hp).
  split; [exact Hz|]. split; [apply Hh; left; reflexivity|].
  split; [exact Ht|]. split; [exact Hd | exact Hp].
Defined.

(** C10, instance: the mined second block of the sample chain. *)
Lemma mine_block_idempotent_witness :
  (1 ≤ Z.of_nat (leading_zeros (hash sample_block1)))%Z
  ∧ mine_block 0 1 sample_block1 = Ok sample_block1
  ∧ mine_block 5 0 sample_block1 = Ok sample_block1.
Proof.
  assert (1 ≤ Z.of_nat (leading_zeros (hash sample_block1)))%Z as Hz
    by (vm_compute; discriminate).
  split; [exact Hz|].
  destruct (mine_block_idempotent 1 sample_block1 Hz) as (Hnow & Hany & _).
  split; [exact Hnow|]. apply Hany. vm_compute. discriminate.
Defined.

(** C8, instance: block 1 of the sample chain. *)
Lemma update_data_spec_witness :
  chain sample_chain !! 1 = Some sample_block1
  ∧ ∃ bc', chain_update_data 1 "Tampered" sample_chain = Ok bc'
      ∧ difficulty bc' = difficulty sample_chain
      ∧ length (chain bc') = length (chain sample_chain)
      ∧ chain bc' !! 1 = Some (update_data "Tampered" sample_block1)
      ∧ ∀ j, j ≠ 1 → chain bc' !! j = chain sample_chain !! j.
Proof.
  split; [reflexivity|].
  destruct (update_data_spec "Tampered" sample_block1) as (_ & _ & _ & _ & _ & Hframe).
  apply Hframe. reflexivity.
Defined.

(** C6, counterexample.  On three leaves, level 0 of the tree has four
    entries. *)
Lemma level0_three_leaves :
  (mt ← MerkleTree_init sample_leaves; Ok (tree mt !! 0))
  = Ok (Some (sample_leaves ++ [sha256 "Block 2"]))
  ∧ length (sample_leaves ++ [sha256 "Block 2"]) = 4
  ∧ length sample_leaves = 3.
Proof. split_and!; vm_compute; reflexivity. Qed.

(** C6, instance: the three sample leaves. *)
Lemma level0_stored_witness :
  sample_leaves ≠ []
  ∧ ∃ mt x, MerkleTree_init sample_leaves = Ok mt
      ∧ py_last sample_leaves = Ok x
      ∧ leaves mt = sample_leaves
      ∧ tree mt !! 0
        = Some (if (1 <? length sample_leaves) && negb (length sample_leaves mod 2 =? 0)
                then sample_leaves ++ [x] else sample_leaves).
Proof.
  assert (sample_leaves ≠ []) as Hne by discriminate.
  split; [exact Hne|]. exact (level0_stored sample_leaves Hne).
Defined.

(** C3, counterexample.  Two roots met once each: the set of the two may
    be iterated with ["b"] first, and the selection then returns ["b"],
    the scan of the list meeting ["a"] first. *)
Lemma majority_tie_not_first_seen :
  set_iteration ["a"; "b"] ["b"; "a"]
  ∧ majority_root ["b"; "a"] ["a"; "b"] = Ok "b"
  ∧ majority_root_first_seen ["a"; "b"] = Some "a".
Proof.
  split_and!; [|reflexivity|reflexivity].
  split; [by apply (bool_decide_unpack _)|].
  intros x. rewrite !elem_of_cons !elem_of_nil. tauto.
Qed.

(** C3, instance: ["a"] met twice and ["b"] once, the set iterated with
    ["b"] first. *)
Lemma majority_root_highest_witness :
  set_iteration ["a"; "b"; "a"] ["b"; "a"]
  ∧ ∃ r pre post, majority_root ["b"; "a"] ["a"; "b"; "a"] = Ok r
      ∧ r ∈ ["a"; "b"; "a"]
      ∧ (∀ x, py_count ["a"; "b"; "a"] x ≤ py_count ["a"; "b"; "a"] r)
      ∧ ["b"; "a"] = pre ++ r :: post
      ∧ Forall (λ y, py_count ["a"; "b"; "a"] y < py_count ["a"; "b"; "a"] r) pre
      ∧ ((∀ x, x ≠ r → py_count ["a"; "b"; "a"] x < py_count ["a"; "b"; "a"] r) →
         majority_root_first_seen ["a"; "b"; "a"] = Some r).
Proof.
  assert (set_iteration ["a"; "b"; "a"] ["b"; "a"]) as Hset.
  { split; [by apply (bool_decide_unpack _)|].
    intros x. rewrite !elem_of_cons !elem_of_nil. tauto. }
  split; [exact Hset|].
  apply (majority_root_highest ["a"; "b"; "a"] ["b"; "a"] Hset). discriminate.
Defined.

(** * Further properties *)

(** ** Mining *)


Section MiningProperties.
Context {T : Type} `{PyStr T}.
Implicit Types (b : Block T).

Lemma mine_block_spent D b :
  startswith (hash b) (py_repeat "0" D) = false → mine_block 0 D b = OutOfFuel.
Proof. intros Hno. cbn [mine_block]. by rewrite Hno. Qed.

Lemma with_nonce_self b : hash b = calculate_hash b → with_nonce b (nonce b) = b.
Proof. destruct b as [ts d p n h]. rewrite /with_nonce /calculate_hash /=. by intros ->. Qed.

Lemma with_nonce_mine_step b n : with_nonce (mine_step b) n = with_nonce b n.
Proof. reflexivity. Qed.

Lemma mine_step_with_nonce b : mine_step b = with_nonce b (nonce b + 1).
Proof. reflexivity. Qed.

Lemma with_nonce_sound b n : hash (with_nonce b n) = calculate_hash (with_nonce b n).
Proof. reflexivity. Qed.

(** The block the loop stops on, by the number of turns it took. *)
Lemma mine_block_turns fuel D b b' :
  hash b = calculate_hash b →
  mine_block fuel D b = Ok b' →
  ∃ k : nat, k ≤ fuel
    ∧ b' = with_nonce b (nonce b + Z.of_nat k)
    ∧ startswith (hash (with_nonce b (nonce b + Z.of_nat k))) (py_repeat "0" D) = true
    ∧ ∀ j : nat, j < k →
        startswith (hash (with_nonce b (nonce b + Z.of_nat j))) (py_repeat "0" D) = false.
Proof.
  revert b. induction fuel as [|fuel IH]; intros b Hb.
  - destruct (startswith (hash b) (py_repeat "0" D)) eqn:Hmet;
      [|by rewrite mine_block_spent].
    rewrite mine_block_met //. intros [= <-]. exists 0.
    rewrite Z.add_0_r with_nonce_self //. split_and!; [done | done | done | lia].
  - destruct (startswith (hash b) (py_repeat "0" D)) eqn:Hmet.
    + rewrite mine_block_met //. intros [= <-]. exists 0.
      rewrite Z.add_0_r with_nonce_self //. split_and!; [lia | done | done | lia].
    + rewrite mine_block_unmet //. intros Hrun.
      destruct (IH (mine_step b)) as (k & Hk & -> & Hz & Hlow); [done | done |].
      rewrite with_nonce_mine_step in Hz |- *.
      replace (nonce (mine_step b) + Z.of_nat k)%Z
        with (nonce b + Z.of_nat (S k))%Z in Hz |- * by (simpl nonce; lia).
      exists (S k). split_and!; [lia | done | done |].
      intros [|j] Hj.
      * by rewrite Z.add_0_r with_nonce_self.
      * specialize (Hlow j ltac:(lia)). rewrite with_nonce_mine_step in Hlow.
        by replace (nonce b + Z.of_nat (S j))%Z
          with (nonce (mine_step b) + Z.of_nat j)%Z by (simpl nonce; lia).
Qed.

(** X1.  On a block whose digest is the digest of its fields,
    [mine_block] stops on the first nonce, counting up from the nonce of
    the block, whose digest meets the target: the block returned has that
    nonce and that digest, and no nonce before it meets the target. *)
Theorem mine_block_least_nonce (fuel : nat) (D : Z) (b b' : Block T) :
  hash b = calculate_hash b →
  mine_block fuel D b = Ok b' →
  ∃ k : nat, k ≤ fuel
    ∧ nonce b' = (nonce b + Z.of_nat k)%Z
    ∧ b' = with_nonce b (nonce b')
    ∧ startswith (hash b') (py_repeat "0" D) = true
    ∧ ∀ j : nat, j < k →
        startswith (hash (with_nonce b (nonce b + Z.of_nat j))) (py_repeat "0" D) = false.
Proof.
  intros Hb Hrun.
  destruct (mine_block_turns fuel D b b' Hb Hrun) as (k & Hk & -> & Hz & Hlow).
  exists k. by split_and!.
Qed.

(** X2.  If the digest at some nonce [nonce b + k] meets the target and
    [k] turns are allowed, [mine_block] returns, with a nonce between the
    nonce of the block and that one. *)
Theorem mine_block_finds_nonce (fuel : nat) (D : Z) (b : Block T) (k : nat) :
  hash b = calculate_hash b →
  startswith (hash (with_nonce b (nonce b + Z.of_nat k))) (py_repeat "0" D) = true →
  k ≤ fuel →
  ∃ b', mine_block fuel D b = Ok b'
        ∧ (nonce b ≤ nonce b' ≤ nonce b + Z.of_nat k)%Z.
Proof.
  revert fuel b. induction k as [|k IH]; intros fuel b Hb Hz Hk.
  - rewrite Z.add_0_r with_nonce_self // in Hz.
    exists b. rewrite mine_block_met //. split; [done | lia].
  - destruct (startswith (hash b) (py_repeat "0" D)) eqn:Hmet.
    + exists b. rewrite mine_block_met //. split; [done | lia].
    + destruct fuel as [|fuel]; [lia|]. rewrite mine_block_unmet //.
      destruct (IH fuel (mine_step b)) as (b' & Hrun & Hn); [done | | lia |].
      * rewrite with_nonce_mine_step.
        by replace (nonce (mine_step b) + Z.of_nat k)%Z
          with (nonce b + Z.of_nat (S k))%Z by (simpl nonce; lia).
      * exists b'. split; [done|]. simpl nonce in Hn. lia.
Qed.


End MiningProperties.

(** ** Validation *)

Section ValidationProperties.
Context {T : Type} `{PyStr T}.
Implicit Types (b prev current : Block T) (bc : Blockchain T) (rest : list (Block T)).



(** The tests on a block look at the block before it through its stored
    digest only. *)
Lemma block_ok_prev_hash d prev prev' current :
  hash prev' = hash prev → block_ok d prev' current = block_ok d prev current.
Proof. intros Hh. by rewrite /block_ok Hh. Qed.

(** X5.  [is_chain_valid()] tests no field of block 0 and reads only
    its stored digest: a chain whose first block has other fields and the
    same stored digest gets the same answer. *)
Theorem is_chain_valid_ignores_genesis (d : Z) (g g' : Block T) (rest : list (Block T)) :
  hash g' = hash g →
  is_chain_valid (mkBlockchain d (g' :: rest)) = is_chain_valid (mkBlockchain d (g :: rest)).
Proof.
  intros Hh. rewrite /is_chain_valid /=. destruct rest as [|current rest]; [done|].
  cbn [is_chain_valid_from]. by rewrite (block_ok_prev_hash d g g').
Qed.

(** X6.  After [update_data] on block [k >= 1] of a valid chain,
    [is_chain_valid()] finds the chain valid exactly when the recomputed
    digest meets the target and either block [k] is the last one or the
    digest is the one the block had; when it does not, the index it
    reports is [k] or [k + 1]. *)
Theorem tamper_undetected_iff (bc bc' : Blockchain T) (k : nat) (p : string) (b : Block T) :
  is_chain_valid bc = (true, None) →
  1 ≤ k → chain bc !! k = Some b →
  chain_update_data k p bc = Ok bc' →
  (is_chain_valid bc' = (true, None) ↔
     startswith (hash (update_data p b)) (py_repeat "0" (difficulty bc)) = true
     ∧ (S k < length (chain bc) → hash (update_data p b) = hash b))
  ∧ (∀ j, is_chain_valid bc' = (false, Some j) → j = k ∨ j = S k).
Proof.
  intros Hvalid Hk Hb Hupd.
  destruct (tamper_outcome bc k p b Hvalid Hk Hb) as (bc2 & Hupd2 & Hres).
  rewrite Hupd in Hupd2. injection Hupd2 as <-. rewrite Hres. clear Hres.
  destruct (startswith _ _) eqn:Hz; cbn [negb andb].
  - case_bool_decide as Hlen; cbn [negb andb].
    + destruct (String.eqb_spec (hash (update_data p b)) (hash b)) as [Heq|Hne];
        cbn [negb].
      * split; [|done]. split; [|done]. intros _. by split.
      * split; [|intros j [= <-]; by right]. split; [done|].
        intros [_ Hh]. destruct Hne. by apply Hh.
    + split; [|done]. split; [|done]. intros _. split; [done|]. intros ?. lia.
  - split; [|intros j [= <-]; by left]. split; [done|]. by intros [? _].
Qed.

End ValidationProperties.

(** ** Corruption by assignment, and construction *)

Section ConstructionProperties.
Context {T : Type} `{PyStr T}.
Implicit Types (b prev current : Block T) (bc : Blockchain T) (rest : list (Block T)).

(** The loop from a block that was replaced by one that keeps the link to
    its predecessor and stores the digest of its fields. *)
Lemma is_chain_valid_from_replaced d i prev b b' rest :
  hash b' = calculate_hash b' →
  previous_hash b' = previous_hash b →
  is_chain_valid_from d i prev (b :: rest) = (true, None) →
  is_chain_valid_from d i prev (b' :: rest) =
  if negb (startswith (hash b') (py_repeat "0" d))
  then (false, Some i)
  else if bool_decide (rest ≠ []) && negb (String.eqb (hash b') (hash b))
       then (false, Some (S i))
       else (true, None).
Proof.
  intros Hh Hp [Hok Hrest]%is_chain_valid_from_cons_true.
  apply block_ok_true in Hok as [_ Hlink].
  cbn [is_chain_valid_from].
  assert (block_ok d prev b' = startswith (hash b') (py_repeat "0" d)) as ->.
  { rewrite /block_ok -Hh String.eqb_refl Hp Hlink String.eqb_refl.
    cbn [negb]. by destruct (startswith _ _). }
  destruct (startswith _ _); [|done]. cbn [negb].
  destruct rest as [|current rest]; [done|].
  apply is_chain_valid_from_cons_true in Hrest as [Hok Hrest].
  cbn [is_chain_valid_from]. rewrite (block_ok_successor d b) //.
  rewrite bool_decide_true //. cbn [andb]. by destruct (String.eqb _ _).
Qed.

(** X7.  When block [k >= 1] of a valid chain is given another payload
    by assignment and its digest is recomputed, the nonce being kept,
    [is_chain_valid()] answers [(False, k)] if the new digest misses the
    target, otherwise [(False, k + 1)] if a block follows and the digest
    has changed, otherwise [(True, None)]. *)
Theorem assign_tamper_outcome (bc : Blockchain T) (k : nat) (p : string) (b : Block T) :
  is_chain_valid bc = (true, None) →
  1 ≤ k → chain bc !! k = Some b →
  is_chain_valid
    (mkBlockchain (difficulty bc) (<[k := assign_data_rehash p b]> (chain bc)))
  = if negb (startswith (hash (assign_data_rehash p b))
                        (py_repeat "0" (difficulty bc)))
    then (false, Some k)
    else if bool_decide (S k < length (chain bc))
            && negb (String.eqb (hash (assign_data_rehash p b)) (hash b))
         then (false, Some (S k))
         else (true, None).
Proof.
  intros Hvalid Hk Hb. rewrite /is_chain_valid in Hvalid |- *.
  cbn [chain difficulty].
  destruct (chain bc) as [|g rest] eqn:Hc; [done|].
  destruct k as [|k]; [lia|]. cbn [lookup list_lookup] in Hb.
  change (<[S k:=assign_data_rehash p b]> (g :: rest))
    with (g :: <[k:=assign_data_rehash p b]> rest).
  pose proof (lookup_lt_Some _ _ _ Hb) as Hlt.
  rewrite insert_take_drop //.
  rewrite -(take_drop_middle rest k b Hb) in Hvalid.
  rewrite is_chain_valid_from_app in Hvalid.
  rewrite is_chain_valid_from_app.
  destruct (is_chain_valid_from_shape (difficulty bc) 1 g (take k rest))
    as [Hpre|(j & Hpre & _)]; rewrite Hpre in Hvalid |- *; cbn [fst] in Hvalid |- *;
    [|done].
  rewrite length_take_le in Hvalid |- *; [lia|].
  rewrite (is_chain_valid_from_replaced _ _ _ b) //.
  destruct (startswith _ _); [|done]. cbn [negb].
  assert (bool_decide (drop (S k) rest ≠ []) = bool_decide (S (S k) < length (g :: rest)))
    as ->; [|done].
  apply bool_decide_ext. rewrite -length_zero_iff_nil length_drop /=. lia.
Qed.

(** The loop of [mine_block] raises no exception. *)
Lemma mine_block_no_raise fuel D b e : mine_block fuel D b ≠ Raise e.
Proof.
  revert b. induction fuel as [|fuel IH]; intros b;
    destruct (startswith (hash b) (py_repeat "0" D)) eqn:Hmet.
  - by rewrite mine_block_met.
  - cbn [mine_block]. by rewrite Hmet.
  - by rewrite mine_block_met.
  - rewrite mine_block_unmet //.
Qed.

(** What the constructor and [add_block] maintain, besides validity. *)
Lemma built_genesis_inv bc :
  built bc →
  ∃ genesis rest, chain bc = genesis :: rest
    ∧ data genesis = "Genesis Block"
    ∧ previous_hash genesis = "0"
    ∧ Forall (λ b, (0 ≤ nonce b)%Z) (genesis :: rest).
Proof.
  induction 1 as [fuel d ts bc Hinit | fuel data ts bc bc' Hb IH Hadd].
  - rewrite /Blockchain_init /create_genesis_block in Hinit.
    destruct (mine_block fuel d _) as [g| |] eqn:Hrun; try discriminate.
    simpl in Hinit. injection Hinit as <-. exists g, []. cbn [chain].
    apply mine_block_inv in Hrun as (_ & _ & _ & Hd & Hp & Hn).
    split_and!; try done. apply Forall_singleton. by simpl in Hn.
  - destruct IH as (g & rest & Hc & Hd & Hp & Hn).
    rewrite /add_block /py_last Hc last_stdpp_default in Hadd.
    cbn [mbind result_bind] in Hadd.
    destruct (mine_block fuel (difficulty bc) _) as [nb| |] eqn:Hrun; try discriminate.
    cbn [mbind result_bind] in Hadd. injection Hadd as <-. cbn [chain].
    apply mine_block_inv in Hrun as (_ & _ & _ & _ & _ & Hnb).
    exists g, (rest ++ [nb]). split_and!; try done.
    change (g :: rest ++ [nb]) with ((g :: rest) ++ [nb]).
    apply Forall_app. split; [done|]. apply Forall_singleton. by simpl in Hnb.
Qed.

(** X8.  In a chain made by the constructor and calls of [add_block],
    block 0 has the payload ["Genesis Block"] and the previous_hash ["0"],
    every nonce is non-negative, and a further call of [add_block] raises
    no exception. *)
Theorem built_chain_genesis (bc : Blockchain T) :
  built bc →
  (∃ genesis, chain bc !! 0 = Some genesis
     ∧ data genesis = "Genesis Block" ∧ previous_hash genesis = "0")
  ∧ (∀ i b, chain bc !! i = Some b → (0 ≤ nonce b)%Z)
  ∧ (∀ fuel data timestamp e, add_block fuel data timestamp bc ≠ Raise e).
Proof.
  intros (g & rest & Hc & Hd & Hp & Hn)%built_genesis_inv. split_and!.
  - exists g. by rewrite Hc.
  - intros i b Hb. rewrite Hc in Hb. rewrite Forall_lookup in Hn. by apply (Hn i).
  - intros fuel data ts e.
    rewrite /add_block /py_last Hc last_stdpp_default. cbn [mbind result_bind].
    destruct (mine_block _ _ _) as [nb|e'|] eqn:Hrun; cbn [mbind result_bind];
      try discriminate.
    by apply mine_block_no_raise in Hrun.
Qed.

(** X9.  A call of [add_block] that returns leaves the difficulty and
    the blocks already there as they were and puts one block after them,
    with the payload and timestamp given, the digest of the block that was
    last as previous_hash, and a digest that is the digest of its fields
    and meets the target. *)
Theorem add_block_appends (fuel : nat) (new_data : string) (ts : T)
    (bc bc' : Blockchain T) :
  add_block fuel new_data ts bc = Ok bc' →
  ∃ last_block new_block,
    last (chain bc) = Some last_block
    ∧ chain bc' = chain bc ++ [new_block]
    ∧ difficulty bc' = difficulty bc
    ∧ data new_block = new_data
    ∧ timestamp new_block = ts
    ∧ previous_hash new_block = hash last_block
    ∧ hash new_block = calculate_hash new_block
    ∧ (difficulty bc ≤ Z.of_nat (leading_zeros (hash new_block)))%Z.
Proof.
  rewrite /add_block /py_last.
  destruct (last (chain bc)) as [lb|]; [|done]. cbn [mbind result_bind].
  destruct (mine_block fuel (difficulty bc) _) as [nb| |] eqn:Hrun; try done.
  cbn [mbind result_bind]. intros [= <-].
  apply mine_block_inv in Hrun as (Hz & Hh & Ht & Hd & Hp & _).
  exists lb, nb. split_and!; try done.
  - apply Hh. by left.
  - by apply startswith_zeros.
Qed.

End ConstructionProperties.

(** ** Mining again after a corruption *)

Section RepairProperties.
Context {T : Type} `{PyStr T}.
Implicit Types (b prev : Block T) (bc : Blockchain T) (blocks : list (Block T)).

(** One turn of the loop: block [i] is replaced by a sound block that
    names the digest of block [i - 1] and keeps timestamp and payload. *)
Lemma remine_at_spec fuel d blocks i blocks' :
  1 ≤ i →
  remine_at fuel d blocks i = Ok blocks' →
  ∃ prev b b', blocks !! (i - 1) = Some prev
    ∧ blocks !! i = Some b
    ∧ blocks' = <[i := b']> blocks
    ∧ sound_block d b'
    ∧ previous_hash b' = hash prev
    ∧ timestamp b' = timestamp b
    ∧ data b' = data b.
Proof.
  intros Hi. rewrite /remine_at /py_index.
  destruct i as [|i]; [lia|]. cbn [Nat.eqb]. replace (S i - 1) with i by lia.
  destruct (blocks !! i) as [prev|]; [|done]. cbn [mbind result_bind].
  destruct (blocks !! S i) as [b|]; [|done]. cbn [mbind result_bind].
  destruct (mine_block fuel d _) as [b'| |] eqn:Hrun; try done.
  cbn [mbind result_bind]. intros [= <-].
  apply mine_block_inv in Hrun as (Hz & Hh & Ht & Hd & Hp & _).
  exists prev, b, b'. split_and!; try done. split; [|done]. apply Hh. by left.
Qed.

(** A valid chain stays valid when a sound block that names the digest
    of its last block is put after it. *)
Lemma is_chain_valid_snoc d blocks prev b :
  is_chain_valid (mkBlockchain d blocks) = (true, None) →
  last blocks = Some prev →
  sound_block d b → previous_hash b = hash prev →
  is_chain_valid (mkBlockchain d (blocks ++ [b])) = (true, None).
Proof.
  rewrite /is_chain_valid /=. destruct blocks as [|g rest]; [done|].
  rewrite last_stdpp_default. intros [Hs Hl]%is_chain_valid_from_true [= <-] Hb Hp.
  apply is_chain_valid_from_true. split.
  - apply Forall_app. split; [done|]. by apply Forall_singleton.
  - by apply linked_snoc.
Qed.

(** The loop over the indices [m], [m + 1], ...: the blocks before [m]
    stay, the blocks up to the last index form a valid chain, timestamps
    and payloads stay. *)
Lemma remine_loop_valid fuel d n m blocks blocks' :
  1 ≤ m → m + n ≤ length blocks →
  is_chain_valid (mkBlockchain d (take m blocks)) = (true, None) →
  remine_loop fuel d (seq m n) blocks = Ok blocks' →
  is_chain_valid (mkBlockchain d (take (m + n) blocks')) = (true, None)
  ∧ take m blocks' = take m blocks
  ∧ Forall2 (λ b b', timestamp b' = timestamp b ∧ data b' = data b) blocks blocks'.
Proof.
  revert m blocks. induction n as [|n IH]; intros m blocks Hm Hlen Hvalid.
  - intros [= <-]. rewrite Nat.add_0_r. split_and!; try done.
    apply Forall2_same_length_lookup. split; [done|]. intros i b b' ? ?. by simplify_eq.
  - cbn [seq remine_loop].
    destruct (remine_at fuel d blocks m) as [blocks1| |] eqn:Hat; try done.
    cbn [mbind result_bind]. intros Hloop.
    apply remine_at_spec in Hat as (prev & b & b1 & Hprev & Hb & -> & Hs & Hp & Ht & Hd);
      [|done].
    pose proof (lookup_lt_Some _ _ _ Hb) as Hlt.
    destruct (IH (S m) (<[m:=b1]> blocks)) as (Hv & Htake & Hframe); try done.
    + lia.
    + rewrite length_insert. lia.
    + rewrite (take_S_r _ _ b1); [by apply list_lookup_insert_eq|].
      rewrite take_insert_ge //.
      apply (is_chain_valid_snoc d _ prev); try done.
      rewrite last_lookup length_take_le; [lia|].
      rewrite lookup_take_lt; [lia|]. by replace (pred m) with (m - 1) by lia.
    + replace (m + S n) with (S m + n) by lia. split_and!; [done | |].
      * assert (∀ l : list (Block T), take m l = take m (take (S m) l)) as Hmin.
        { intros l. rewrite take_take. by replace (m `min` S m) with m by lia. }
        by rewrite (Hmin blocks') Htake -Hmin take_insert_ge.
      * assert (Forall2 (λ b b', timestamp b' = timestamp b ∧ data b' = data b)
                        blocks (<[m:=b1]> blocks)) as Hstep.
        { rewrite -{1}(list_insert_id blocks m b) //. apply Forall2_insert; [|done].
          apply Forall2_same_length_lookup. split; [done|].
          intros i x y ? ?. by simplify_eq. }
        eapply Forall2_trans; [ | exact Hstep | exact Hframe ].
        intros x y z [? ?] [? ?]. split; congruence.
Qed.

(** X10.  On a chain whose block 1 names the digest of block 0, when
    the corruption of block 1 and the mining again of the blocks from
    index 1 on come to their end, [is_chain_valid()] answers
    [(True, None)]; block 0 is as it was, block 1 has the new payload, and
    every block has the timestamp, and every other block the payload, it
    had. *)
Theorem corrupt_and_remine_valid (fuel : nat) (new_data : string)
    (bc bc' : Blockchain T) (g b1 : Block T) :
  chain bc !! 0 = Some g → chain bc !! 1 = Some b1 →
  previous_hash b1 = hash g →
  corrupt_and_remine fuel (difficulty bc) new_data bc = Ok bc' →
  is_chain_valid bc' = (true, None)
  ∧ difficulty bc' = difficulty bc
  ∧ length (chain bc') = length (chain bc)
  ∧ chain bc' !! 0 = Some g
  ∧ ∀ i b b', chain bc !! i = Some b → chain bc' !! i = Some b' →
      timestamp b' = timestamp b
      ∧ data b' = if bool_decide (i = 1) then new_data else data b.
Proof.
  intros Hg Hb1 Hlink. rewrite /corrupt_and_remine /py_index Hb1.
  cbn [mbind result_bind].
  destruct (mine_block fuel (difficulty bc) _) as [cb| |] eqn:Hrun; try done.
  cbn [mbind result_bind].
  destruct (remine_loop _ _ _ _) as [blocks'| |] eqn:Hloop; try done.
  cbn [mbind result_bind]. intros [= <-]. cbn [chain difficulty].
  apply mine_block_inv in Hrun as (Hz & Hh & Ht & Hd & Hp & _).
  pose proof (lookup_lt_Some _ _ _ Hb1) as Hlt.
  rewrite length_insert in Hloop.
  apply remine_loop_valid in Hloop as (Hv & Htake & Hframe).
  - replace (2 + (length (chain bc) - 2)) with (length (chain bc)) in Hv by lia.
    pose proof (Forall2_length _ _ _ Hframe) as Hlen. rewrite length_insert in Hlen.
    rewrite take_ge in Hv; [lia|]. split_and!; try done.
    + assert (take 2 blocks' !! 0 = take 2 (<[1:=cb]> (chain bc)) !! 0) as Hz0
        by by rewrite Htake.
      rewrite !lookup_take_lt in Hz0; [lia | lia|].
      by rewrite Hz0 list_lookup_insert_ne.
    + intros i b b' Hb Hb'.
      case_bool_decide as Hi; [subst i|].
      * assert (<[1:=cb]> (chain bc) !! 1 = Some cb) as Hcb
          by by apply list_lookup_insert_eq.
        destruct (Forall2_lookup_lr _ _ _ _ _ _ Hframe Hcb Hb') as [Ht' Hd'].
        simplify_eq. split; [by rewrite Ht' Ht | by rewrite Hd' Hd].
      * assert (<[1:=cb]> (chain bc) !! i = Some b) as Hbi
          by by rewrite list_lookup_insert_ne.
        by destruct (Forall2_lookup_lr _ _ _ _ _ _ Hframe Hbi Hb').
  - lia.
  - rewrite length_insert. lia.
  - destruct (chain bc) as [|g0 [|b0 rest]] eqn:Hc; try done.
    simplify_eq/=. rewrite /is_chain_valid /=.
    assert (block_ok (difficulty bc) g cb = true) as ->; [|done].
    apply block_ok_true. split; [split; [|done]|].
    + apply Hh. by left.
    + by rewrite Hp.
Qed.

End RepairProperties.

(** ** Comparison of two chains *)

Section ComparisonProperties.
Context {T : Type} `{PyStr T}.
Implicit Types (b : Block T) (bc : Blockchain T).

Lemma diffs_from_elem (i j : nat) (pairs : list (Block T * Block T)) :
  j ∈ diffs_from i pairs ↔
  ∃ n b1 b2, j = i + n ∧ pairs !! n = Some (b1, b2) ∧ hash b1 ≠ hash b2.
Proof.
  revert i. induction pairs as [|[b1 b2] pairs IH]; intros i.
  - cbn [diffs_from]. rewrite elem_of_nil. split; [done|]. by intros (n & ? & ? & _ & ? & _).
  - cbn [diffs_from].
    destruct (String.eqb_spec (hash b1) (hash b2)) as [Heq|Hne]; cbn [negb].
    + rewrite IH. split.
      * intros (n & c1 & c2 & -> & Hn & Hd). exists (S n), c1, c2.
        split_and!; [lia | done | done].
      * intros ([|n] & c1 & c2 & -> & Hn & Hd); [by simplify_eq/=|].
        exists n, c1, c2. split_and!; [lia | done | done].
    + rewrite elem_of_cons IH. split.
      * intros [->|(n & c1 & c2 & -> & Hn & Hd)].
        -- exists 0, b1, b2. split_and!; [lia | done | done].
        -- exists (S n), c1, c2. split_and!; [lia | done | done].
      * intros ([|n] & c1 & c2 & -> & Hn & Hd).
        -- left. lia.
        -- right. exists n, c1, c2. split_and!; [lia | done | done].
Qed.

Lemma diffs_from_sorted (i : nat) (pairs : list (Block T * Block T)) :
  StronglySorted lt (diffs_from i pairs).
Proof.
  revert i. induction pairs as [|[b1 b2] pairs IH]; intros i; cbn [diffs_from].
  - constructor.
  - destruct (negb _); [|apply IH]. constructor; [apply IH|].
    apply Forall_forall. intros j (n & ? & ? & -> & _)%diffs_from_elem. lia.
Qed.

Lemma compare_blockchains_elem (bc1 bc2 : Blockchain T) (i : nat) :
  i ∈ compare_blockchains bc1 bc2 ↔
  ∃ b1 b2, chain bc1 !! i = Some b1 ∧ chain bc2 !! i = Some b2 ∧ hash b1 ≠ hash b2.
Proof.
  rewrite /compare_blockchains diffs_from_elem. split.
  - intros (n & b1 & b2 & -> & Hn & Hd).
    apply lookup_zip_with_Some in Hn as (c1 & c2 & [= <- <-] & H1 & H2).
    by exists b1, b2.
  - intros (b1 & b2 & H1 & H2 & Hd). exists i, b1, b2. split_and!; [done | | done].
    apply lookup_zip_with_Some. by exists b1, b2.
Qed.

(** X11.  [compare_blockchains] reports index [i] exactly when both
    chains have a block [i] and the stored digests of the two differ, and
    it reports the indices in increasing order. *)
Theorem compare_blockchains_reports (bc1 bc2 : Blockchain T) :
  StronglySorted lt (compare_blockchains bc1 bc2)
  ∧ ∀ i, i ∈ compare_blockchains bc1 bc2 ↔
      ∃ b1 b2, chain bc1 !! i = Some b1 ∧ chain bc2 !! i = Some b2
               ∧ hash b1 ≠ hash b2.
Proof. split; [apply diffs_from_sorted | apply compare_blockchains_elem]. Qed.

(** X12.  Blocks that one chain has beyond the length of the other are
    not compared: between a chain and the same chain followed by further
    blocks, [compare_blockchains] reports no difference, in either
    order. *)
Theorem compare_blockchains_misses_extension (bc1 bc2 : Blockchain T)
    (extra : list (Block T)) :
  chain bc2 = chain bc1 ++ extra →
  compare_blockchains bc1 bc2 = [] ∧ compare_blockchains bc2 bc1 = [].
Proof.
  intros Hext.
  assert (∀ l : list nat, (∀ i, i ∉ l) → l = []) as Hnil.
  { intros [|x l] Hl; [done|]. destruct (Hl x). by left. }
  split; apply Hnil; intros i (b1 & b2 & H1 & H2 & Hd)%compare_blockchains_elem.
  - rewrite Hext (lookup_app_l_Some _ _ _ _ H1) in H2. by simplify_eq.
  - rewrite Hext (lookup_app_l_Some _ _ _ _ H2) in H1. by simplify_eq.
Qed.

Lemma table_rows_spec (i : nat) (blocks1 chain2 : list (Block T)) :
  table_rows i blocks1 chain2 =
  if bool_decide (i + length blocks1 ≤ length chain2 ∨ blocks1 = [])
  then Ok (imap (λ n '(b1, b2), (i + n, hash b1, hash b2, String.eqb (hash b1) (hash b2)))
                (zip blocks1 (drop i chain2)))
  else Raise IndexError.
Proof.
  revert i. induction blocks1 as [|b1 blocks1 IH]; intros i.
  - cbn [table_rows]. rewrite bool_decide_true //. by right.
  - cbn [table_rows]. rewrite /py_index.
    destruct (chain2 !! i) as [b2|] eqn:Hb2; cbn [mbind result_bind].
    + rewrite IH. pose proof (lookup_lt_Some _ _ _ Hb2) as Hlt.
      rewrite (drop_S _ _ _ Hb2). cbn [zip_with imap length].
      case_bool_decide as Hle; case_bool_decide as Hle'; cbn [mbind result_bind].
      * rewrite Nat.add_0_r. do 2 f_equal. apply imap_ext. intros n [c1 c2] _.
        rewrite /compose. by replace (S i + n) with (i + S n) by lia.
      * destruct Hle'. left. destruct Hle as [Hle| ->]; simpl in *; lia.
      * destruct Hle. destruct Hle' as [Hle'|?]; [|done]. left. simpl in Hle'. lia.
      * done.
    + apply lookup_ge_None in Hb2. rewrite bool_decide_false //.
      intros [Hle|?]; [|done]. simpl in Hle. lia.
Qed.

(** X13.  [compare_blockchains_table] raises [IndexError] when the
    second chain is shorter than the first; otherwise it gives one row for
    each block of the first chain, with the digests at that index in the
    two chains and whether they are equal, the further blocks of the
    second chain being left out. *)
Theorem compare_blockchains_table_rows (bc1 bc2 : Blockchain T) :
  compare_blockchains_table bc1 bc2 =
  if bool_decide (length (chain bc1) ≤ length (chain bc2))
  then Ok (imap (λ n '(b1, b2), (n, hash b1, hash b2, String.eqb (hash b1) (hash b2)))
                (zip (chain bc1) (chain bc2)))
  else Raise IndexError.
Proof.
  rewrite /compare_blockchains_table table_rows_spec drop_0. cbn [Nat.add].
  case_bool_decide as Hle; case_bool_decide as Hle'; try done.
  - destruct Hle'. destruct Hle as [?| ->]; [done | simpl; lia].
  - destruct Hle. by left.
Qed.

End ComparisonProperties.

(** ** Shape of a Merkle tree *)

Section MerkleShape.
Implicit Types (level next hs : list string) (lvls : list (list string)).

(** What [levels_from] does on a level of more than one entry. *)
Lemma levels_from_step fuel level lvls :
  1 < length level →
  levels_from fuel level = Ok lvls →
  ∃ fuel' padded next rest,
    fuel = S fuel'
    ∧ pad_odd level = Ok padded
    ∧ hash_pairs padded = Ok next
    ∧ length padded = 2 * length next
    ∧ length level ≤ length padded ≤ S (length level)
    ∧ levels_from fuel' next = Ok rest
    ∧ lvls = padded :: rest.
Proof.
  intros Hgt. destruct fuel as [|fuel]; cbn [levels_from];
    replace (1 <? length level) with true by (symmetry; by apply Nat.ltb_lt); [done|].
  destruct (pad_odd_total level) as (padded & Hpad & Hev & Hlen).
  rewrite Hpad. cbn [mbind result_bind].
  destruct (hash_pairs_even padded Hev) as (next & Hpairs & Hl).
  rewrite Hpairs. cbn [mbind result_bind].
  destruct (levels_from fuel next) as [rest| |] eqn:Hrest; try done.
  cbn [mbind result_bind]. intros [= <-].
  exists fuel, padded, next, rest. split_and!; try done; lia.
Qed.

Lemma levels_from_single fuel level lvls :
  length level ≤ 1 → levels_from fuel level = Ok lvls → lvls = [level].
Proof.
  intros Hle. rewrite levels_from_unfold.
  replace (1 <? length level) with false by (symmetry; apply Nat.ltb_ge; lia).
  by intros [= <-].
Qed.

(** The last level has one entry, and each level is followed by its
    pairing, padded in its turn when the loop takes it up. *)
Lemma levels_from_shape fuel level lvls :
  level ≠ [] →
  levels_from fuel level = Ok lvls →
  (∃ root, last lvls = Some [root])
  ∧ ∀ i lvl nxt, lvls !! i = Some lvl → lvls !! S i = Some nxt →
      ∃ raw, hash_pairs lvl = Ok raw
        ∧ length lvl = 2 * length raw
        ∧ if 1 <? length raw then pad_odd raw = Ok nxt else nxt = raw.
Proof.
  revert level lvls. induction fuel as [|fuel IH]; intros level lvls Hne Hl.
  - destruct (decide (1 < length level)) as [Hgt|Hle].
    { by destruct (levels_from_step 0 level lvls Hgt Hl) as (? & ? & ? & ? & ? & _). }
    apply levels_from_single in Hl as ->; [|lia].
    destruct level as [|x [|y level]]; [done | | simpl in Hle; lia].
    split; [by exists x|]. by intros [|i] lvl nxt ? ?.
  - destruct (decide (1 < length level)) as [Hgt|Hle].
    + destruct (levels_from_step _ level lvls Hgt Hl)
        as (fuel' & padded & next & rest & [= <-] & Hpad & Hpairs & Hlen & Hbound & Hrest & ->).
      assert (next ≠ []) as Hnext by (intros ->; simpl in Hlen; lia).
      destruct (IH next rest Hnext Hrest) as ((root & Hlast) & Hlinks).
      pose proof (levels_from_head _ _ _ Hrest) as (first & rest' & -> & Hfirst).
      split; [exists root; by rewrite last_cons Hlast|].
      intros [|i] lvl nxt Hlvl Hnxt.
      * simpl in Hlvl, Hnxt. simplify_eq. by exists next.
      * by apply (Hlinks i).
    + apply levels_from_single in Hl as ->; [|lia].
      destruct level as [|x [|y level]]; [done | | simpl in Hle; lia].
      split; [by exists x|]. by intros [|i] lvl nxt ? ?.
Qed.

(** The number of levels above the leaves is the logarithm of the number
    of leaves, rounded up. *)
Lemma levels_from_height fuel level lvls :
  level ≠ [] →
  levels_from fuel level = Ok lvls →
  ∃ k, length lvls = S k
    ∧ length level ≤ 2 ^ k
    ∧ (1 < length level → 2 ^ k < 2 * length level ∧ 1 ≤ k)
    ∧ (length level ≤ 1 → k = 0).
Proof.
  revert level lvls. induction fuel as [|fuel IH]; intros level lvls Hne Hl.
  - destruct (decide (1 < length level)) as [Hgt|Hle].
    { by destruct (levels_from_step 0 level lvls Hgt Hl) as (? & ? & ? & ? & ? & _). }
    apply levels_from_single in Hl as ->; [|lia].
    exists 0. simpl. split_and!; [done | lia | lia | done].
  - destruct (decide (1 < length level)) as [Hgt|Hle].
    + destruct (levels_from_step _ level lvls Hgt Hl)
        as (fuel' & padded & next & rest & [= <-] & Hpad & Hpairs & Hlen & Hbound & Hrest & ->).
      assert (next ≠ []) as Hnext by (intros ->; simpl in Hlen; lia).
      destruct (IH next rest Hnext Hrest) as (k & Hk & Hup & Hlow & Hone).
      exists (S k). cbn [length]. rewrite Hk Nat.pow_succ_r'.
      split_and!; [done | lia | | lia].
      intros _. destruct (decide (1 < length next)) as [Hm|Hm].
      * destruct (Hlow Hm) as [Hlt Hk1]. destruct k as [|k]; [lia|].
        rewrite Nat.pow_succ_r' in Hlt |- *. lia.
      * rewrite (Hone ltac:(lia)). simpl. lia.
    + apply levels_from_single in Hl as ->; [|lia].
      exists 0. simpl. split_and!; [done | lia | lia | done].
Qed.

(** The root of leaves that are not empty is computed without an
    exception. *)
Lemma merkle_root_defined (hs : list string) :
  hs ≠ [] →
  ∃ mt root, MerkleTree_init hs = Ok mt ∧ compute_merkle_root mt = Ok root.
Proof.
  intros Hne. rewrite MerkleTree_init_spec bool_decide_true //.
  destruct (levels_from_total (length hs) hs) as (lvls & Hl); [lia|].
  rewrite Hl. cbn [mbind result_bind].
  destruct (levels_from_shape _ _ _ Hne Hl) as ((root & Hlast) & _).
  exists (mkMerkleTree hs lvls), root. split; [done|].
  rewrite /compute_merkle_root /py_last. cbn [tree].
  rewrite bool_decide_false; [by intros ->|]. by rewrite Hlast.
Qed.


(** X15.  The tree on [n >= 1] leaves has [k + 1] levels, where [k] is
    the least number with [n <= 2 ^ k]: one level for one leaf. *)
Theorem merkle_tree_height (hs : list string) :
  hs ≠ [] →
  ∃ mt k, MerkleTree_init hs = Ok mt
    ∧ length (tree mt) = S k
    ∧ length hs ≤ 2 ^ k
    ∧ ∀ j, length hs ≤ 2 ^ j → k ≤ j.
Proof.
  intros Hne. rewrite MerkleTree_init_spec bool_decide_true //.
  destruct (levels_from_total (length hs) hs) as (lvls & Hl); [lia|].
  rewrite Hl. cbn [mbind result_bind].
  destruct (levels_from_height _ _ _ Hne Hl) as (k & Hk & Hup & Hlow & Hone).
  exists (mkMerkleTree hs lvls), k. cbn [tree].
  split_and!; [done | done | done |]. intros j Hj.
  destruct (decide (1 < length hs)) as [Hgt|Hle]; [|rewrite Hone; lia].
  destruct (Hlow Hgt) as [Hlt Hk1].
  destruct (decide (k ≤ j)) as [|Hjk]; [done|].
  destruct k as [|k]; [lia|]. rewrite Nat.pow_succ_r' in Hlt.
  pose proof (Nat.pow_le_mono_r 2 j k ltac:(lia) ltac:(lia)). lia.
Qed.

End MerkleShape.

(** ** The tree against the reduction as specified *)

Lemma odd_as_mod2 (n : nat) : Nat.odd n = negb (n mod 2 =? 0).
Proof.
  cut (Nat.odd n = negb (n mod 2 =? 0) ∧ Nat.odd (S n) = negb (S n mod 2 =? 0));
    [tauto|].
  induction n as [|n [IH0 IH1]]; [done|].
  split; [done|]. by rewrite mod2_SS -IH0.
Qed.

(** The loop over the pairs gives the digests of the pairs. *)
Lemma hash_pairs_digests (level next : list string) :
  hash_pairs level = Ok next → next = digests_of_pairs level.
Proof.
  revert next. induction level as [|x|x y l IH] using pair_induction; intros next.
  - by intros [= <-].
  - done.
  - cbn [hash_pairs digests_of_pairs].
    destruct (hash_pairs l) as [rest| |]; try done. cbn [mbind result_bind].
    intros [= <-]. by rewrite (IH rest).
Qed.

(** The padding of the loop is the duplication of the last entry. *)
Lemma pad_odd_stored (level padded : list string) :
  1 < length level → pad_odd level = Ok padded →
  padded = stored_level level
  ∧ padded = (if Nat.odd (length level) then with_last_duplicated level else level).
Proof.
  intros Hgt. rewrite /pad_odd /stored_level /with_last_duplicated /py_last odd_as_mod2.
  replace (1 <? length level) with true by (symmetry; by apply Nat.ltb_lt).
  cbn [andb]. destruct (negb (length level mod 2 =? 0)).
  - destruct (last level) as [x|]; [|done]. cbn [mbind result_bind]. by intros [= <-].
  - by intros [= <-].
Qed.

(** The levels that the tree holds are the levels as specified, each with
    its last entry duplicated when the loop has taken it up with an odd
    number of entries. *)
Lemma levels_from_as_specified (fuel : nat) (level : list string)
    (lvls : list (list string)) :
  levels_from fuel level = Ok lvls →
  lvls = map stored_level (levels_as_specified fuel level).
Proof.
  revert level lvls. induction fuel as [|fuel IH]; intros level lvls Hl.
  - destruct (decide (1 < length level)) as [Hgt|Hle].
    { by destruct (levels_from_step 0 level lvls Hgt Hl) as (? & ? & ? & ? & ? & _). }
    apply levels_from_single in Hl as ->; [|lia].
    cbn [levels_as_specified].
    replace (1 <? length level) with false by (symmetry; apply Nat.ltb_ge; lia).
    cbn [map]. rewrite /stored_level.
    by replace (1 <? length level) with false by (symmetry; apply Nat.ltb_ge; lia).
  - destruct (decide (1 < length level)) as [Hgt|Hle].
    + destruct (levels_from_step _ level lvls Hgt Hl)
        as (fuel' & padded & next & rest & [= <-] & Hpad & Hpairs & _ & _ & Hrest & ->).
      destruct (pad_odd_stored level padded Hgt Hpad) as [Hstored Hdup].
      apply hash_pairs_digests in Hpairs.
      cbn [levels_as_specified].
      replace (1 <? length level) with true by (symmetry; by apply Nat.ltb_lt).
      cbn [map]. rewrite -Hstored. f_equal.
      rewrite (IH next rest Hrest). by rewrite /reduced_as_specified -Hdup -Hpairs.
    + apply levels_from_single in Hl as ->; [|lia].
      cbn [levels_as_specified].
      replace (1 <? length level) with false by (symmetry; apply Nat.ltb_ge; lia).
      cbn [map]. rewrite /stored_level.
      by replace (1 <? length level) with false by (symmetry; apply Nat.ltb_ge; lia).
Qed.

Lemma levels_from_root_as_specified (fuel : nat) (level : list string)
    (lvls : list (list string)) :
  level ≠ [] →
  levels_from fuel level = Ok lvls →
  ∃ root, root_as_specified fuel level = Some root ∧ last lvls = Some [root].
Proof.
  revert level lvls. induction fuel as [|fuel IH]; intros level lvls Hne Hl.
  - destruct (decide (1 < length level)) as [Hgt|Hle].
    { by destruct (levels_from_step 0 level lvls Hgt Hl) as (? & ? & ? & ? & ? & _). }
    apply levels_from_single in Hl as ->; [|lia].
    destruct level as [|x [|y level]]; [done | | simpl in Hle; lia]. by exists x.
  - destruct (decide (1 < length level)) as [Hgt|Hle].
    + destruct (levels_from_step _ level lvls Hgt Hl)
        as (fuel' & padded & next & rest & [= <-] & Hpad & Hpairs & Hlen & _ & Hrest & ->).
      assert (next ≠ []) as Hnext.
      { intros ->. destruct (pad_odd_total level) as (p' & Hp' & _ & Hb).
        rewrite Hpad in Hp'. injection Hp' as <-. simpl in Hlen. lia. }
      destruct (IH next rest Hnext Hrest) as (root & Hroot & Hlast).
      destruct (pad_odd_stored level padded Hgt Hpad) as [_ Hdup].
      apply hash_pairs_digests in Hpairs.
      exists root. cbn [root_as_specified].
      replace (1 <? length level) with true by (symmetry; by apply Nat.ltb_lt).
      split; [by rewrite /reduced_as_specified -Hdup -Hpairs|].
      pose proof (levels_from_head _ _ _ Hrest) as (first & rest' & -> & _).
      by rewrite last_cons Hlast.
    + apply levels_from_single in Hl as ->; [|lia].
      destruct level as [|x [|y level]]; [done | | simpl in Hle; lia]. by exists x.
Qed.

(** One turn of the loop of [build_tree] on a level with an odd number of
    entries, wherever the level is in the tree. *)
Lemma build_loop_odd_turn (fuel ref : nat) (st : tree_state) (level : list string)
    (x : string) :
  objs st !! ref = Some level →
  1 < length level → Nat.odd (length level) = true → last level = Some x →
  build_loop (S fuel) ref st
  = build_loop fuel (length (objs st))
      (mkTreeState
         (<[ref := level ++ [x]]> (objs st) ++ [digests_of_pairs (level ++ [x])])
         (leaves_ref st) (tree_refs st ++ [length (objs st)])).
Proof.
  intros Href Hgt Hodd Hlast. cbn [build_loop].
  rewrite (read_lookup _ _ level) //.
  replace (1 <? length level) with true by (symmetry; by apply Nat.ltb_lt).
  rewrite pad_in_store // /pad_odd /py_last -odd_as_mod2 Hodd Hlast.
  cbn [mbind result_bind].
  pose proof (lookup_lt_Some _ _ _ Href) as Hlt.
  rewrite (read_lookup _ _ (level ++ [x])); [by apply list_lookup_insert_eq|].
  destruct (hash_pairs_even (level ++ [x])) as (next & Hnext & _).
  { rewrite length_app Nat.add_1_r.
    destruct (mod2_S (length level)) as [[He _]|[_ Ho]]; [|done].
    by rewrite odd_as_mod2 He in Hodd. }
  rewrite Hnext. cbn [mbind result_bind].
  apply hash_pairs_digests in Hnext as ->.
  by rewrite /alloc length_insert.
Qed.

(** C5.  The root on three leaves is the root on these leaves followed
    by a copy of the third, the digest of the digest of the first two and
    of the digest of the third put twice.  More generally, at every level
    of the tree and not at the leaves only, a level with an odd number of
    entries is reduced as if its last entry were duplicated before
    pairing: one turn of the loop of [build_tree] on such a level puts a
    copy of its last entry after it and allocates the digests of the
    pairs of the result as next level; the tree built on leaves that are
    not empty holds the levels obtained by the reduction as specified,
    each with that copy when it is odd and is reduced, and its root is
    the root as specified; and the tree on an odd number of leaves, more
    than one, is the tree on these leaves followed by a copy of the
    last. *)
Theorem odd_level_duplicates_last :
  (∀ h0 h1 h2 : string,
     merkle_root [h0; h1; h2] = merkle_root [h0; h1; h2; h2]
     ∧ merkle_root [h0; h1; h2]
       = Ok (sha256 (sha256 (h0 +:+ h1) +:+ sha256 (h2 +:+ h2))))
  ∧ (∀ (fuel ref : nat) (st : tree_state) (level : list string) (x : string),
       objs st !! ref = Some level →
       1 < length level → Nat.odd (length level) = true → last level = Some x →
       build_loop (S fuel) ref st
       = build_loop fuel (length (objs st))
           (mkTreeState
              (<[ref := level ++ [x]]> (objs st) ++ [digests_of_pairs (level ++ [x])])
              (leaves_ref st) (tree_refs st ++ [length (objs st)])))
  ∧ (∀ hs : list string,
       hs ≠ [] →
       ∃ mt root, MerkleTree_init hs = Ok mt
         ∧ tree mt = map stored_level (levels_as_specified (length hs) hs)
         ∧ root_as_specified (length hs) hs = Some root
         ∧ compute_merkle_root mt = Ok root)
  ∧ (∀ (hs : list string) (x : string),
       length hs mod 2 ≠ 0 → 1 < length hs → py_last hs = Ok x →
       (mt ← MerkleTree_init hs; Ok (tree mt))
       = (mt ← MerkleTree_init (hs ++ [x]); Ok (tree mt))
       ∧ merkle_root hs = merkle_root (hs ++ [x])).
Proof.
  split_and!.
  - intros h0 h1 h2. split; reflexivity.
  - apply build_loop_odd_turn.
  - intros hs Hne. rewrite MerkleTree_init_spec bool_decide_true //.
    destruct (levels_from_total (length hs) hs) as (lvls & Hl); [lia|].
    rewrite Hl. cbn [mbind result_bind].
    destruct (levels_from_root_as_specified _ _ _ Hne Hl) as (root & Hroot & Hlast).
    exists (mkMerkleTree hs lvls), root. cbn [tree].
    split_and!; [done | by apply levels_from_as_specified | done |].
    rewrite /compute_merkle_root /py_last. cbn [tree].
    rewrite bool_decide_false; [by intros ->|]. by rewrite Hlast.
  - intros hs x Hodd Hgt Hlast.
    pose proof (padded_leaves_same_tree hs x Hodd Hgt Hlast) as Htree.
    split; [done|]. rewrite /merkle_root.
    destruct (MerkleTree_init hs) as [mt| |];
      destruct (MerkleTree_init (hs ++ [x])) as [mt'| |];
      simpl in Htree |- *; try discriminate; try done.
    + injection Htree as Htree. by rewrite /compute_merkle_root Htree.
    + by injection Htree as ->.
Qed.

(** C5, instance: the five leaves ["a"] to ["e"], whose level above the
    leaves has three entries, and the three sample leaves. *)
Lemma odd_level_duplicates_last_witness :
  (∃ mt root, MerkleTree_init ["a"; "b"; "c"; "d"; "e"] = Ok mt
     ∧ tree mt
       = [ ["a"; "b"; "c"; "d"; "e"; "e"];
           [sha256 "ab"; sha256 "cd"; sha256 "ee"; sha256 "ee"];
           [sha256 (sha256 "ab" +:+ sha256 "cd"); sha256 (sha256 "ee" +:+ sha256 "ee")];
           [root] ]
     ∧ compute_merkle_root mt = Ok root)
  ∧ merkle_root sample_leaves = merkle_root (sample_leaves ++ [sha256 "Block 2"]).
Proof.
  destruct odd_level_duplicates_last as (_ & _ & Hspec & Htree).
  split.
  - destruct (Hspec ["a"; "b"; "c"; "d"; "e"]) as (mt & root & Hinit & Hlevels & Hroot & Hcomp);
      [discriminate|].
    exists mt, root. split; [exact Hinit|]. split; [|exact Hcomp].
    rewrite Hlevels. vm_compute in Hroot. injection Hroot as <-.
    vm_compute. reflexivity.
  - apply (Htree sample_leaves (sha256 "Block 2")); [discriminate | | reflexivity].
    apply le_S, le_n.
Defined.

(** ** Majority among replicas *)

Lemma py_count_two (roots : list string) (x r : string) :
  x ≠ r → py_count roots x + py_count roots r ≤ length roots.
Proof.
  intros Hne. rewrite /py_count. induction roots as [|a roots IH]; [done|].
  cbn [count_occ length].
  destruct (String.string_dec a x) as [Hx|Hx]; destruct (String.string_dec a r) as [Hr|Hr];
    [congruence | lia | lia | lia].
Qed.

(** A root that more than half of the entries have is what [max]
    returns, whatever the order of iteration. *)
Lemma strict_majority_max (roots order : list string) (r : string) :
  set_iteration roots order →
  length roots < 2 * py_count roots r →
  majority_root order roots = Ok r.
Proof.
  intros [Hnodup Hsame] Hmaj.
  assert (r ∈ roots) as Hr by (apply py_count_elem; lia).
  assert (order ≠ []) as Hone.
  { intros ->. by apply (elem_of_nil r), Hsame. }
  destruct (py_max_first (py_count roots) order Hone)
    as (r' & pre & post & Hmax & Heq & Hpre & Hpost).
  destruct (decide (r' = r)) as [->|Hne]; [done|].
  pose proof (py_count_two roots r' r Hne) as Htwo.
  apply Hsame in Hr. rewrite Heq in Hr.
  apply elem_of_app in Hr as [Hr|Hr].
  - rewrite Forall_forall in Hpre. specialize (Hpre r Hr). lia.
  - apply elem_of_cons in Hr as [->|Hr]; [done|].
    rewrite Forall_forall in Hpost. specialize (Hpost r Hr). lia.
Qed.

(** X16.  A root that more than half of the replicas have is the one
    that [max(set(roots), key=roots.count)] returns, in whatever order the
    set is iterated; it is also the first root with the highest count in
    the order of the list. *)
Theorem strict_majority_wins (roots order : list string) (r : string) :
  set_iteration roots order →
  length roots < 2 * py_count roots r →
  majority_root order roots = Ok r ∧ majority_root_first_seen roots = Some r.
Proof.
  intros Hset Hmaj. split; [by apply strict_majority_max|].
  assert (∀ x, x ≠ r → py_count roots x < py_count roots r) as Hless.
  { intros x Hx. pose proof (py_count_two roots x r Hx). lia. }
  assert (r ∈ roots) as Hr by (apply py_count_elem; lia).
  rewrite /majority_root_first_seen.
  assert (highest_count roots = py_count roots r) as ->.
  { apply foldr_max_bound.
    - apply list_elem_of_fmap. by exists r.
    - apply Forall_fmap, Forall_forall. intros x _. simpl.
      destruct (decide (x = r)) as [->|Hx]; [done|]. specialize (Hless x Hx). lia. }
  destruct (find _ roots) as [x|] eqn:Hfind.
  - apply find_some in Hfind as [_ Hx%Nat.eqb_eq].
    destruct (decide (x = r)) as [->|Hxr]; [done|].
    specialize (Hless x Hxr). lia.
  - apply list_elem_of_In in Hr.
    pose proof (find_none _ _ Hfind r Hr) as Hno. simpl in Hno.
    by rewrite Nat.eqb_refl in Hno.
Qed.

Section ReplicaProperties.
Context {T : Type} `{PyStr T}.
Implicit Types (bc : Blockchain T) (blockchains : list (Blockchain T)).

Lemma is_chain_valid_shape bc :
  is_chain_valid bc = (true, None) ∨ ∃ j, is_chain_valid bc = (false, Some j).
Proof.
  rewrite /is_chain_valid. destruct (chain bc) as [|g rest]; [by left|].
  destruct (is_chain_valid_from_shape (difficulty bc) 1 g rest) as [?|(j & ? & _)];
    [by left | right; by exists j].
Qed.

(** The root of a chain is computed without an exception. *)
Lemma chain_root_total bc : ∃ root, chain_root bc = Ok root.
Proof.
  rewrite /chain_root. destruct (decide (map hash (chain bc) = [])) as [->|Hne].
  - by exists "".
  - destruct (merkle_root_defined (map hash (chain bc)) Hne) as (mt & root & -> & Hroot).
    by exists root.
Qed.

Lemma mapM_Ok_lookup {A B} (f : A → result B) (l : list A) (k : list B) :
  mapM f l = Ok k →
  length k = length l ∧ ∀ i x, l !! i = Some x → ∃ y, k !! i = Some y ∧ f x = Ok y.
Proof.
  revert k. induction l as [|x l IH]; intros k.
  - intros [= <-]. split; [done|]. by intros i x ?.
  - cbn [mapM]. destruct (f x) as [y| |] eqn:Hy; try done. cbn [mbind result_bind].
    destruct (mapM f l) as [k'| |]; try done. cbn [mbind result_bind mret result_ret].
    intros [= <-]. destruct (IH k' eq_refl) as [Hlen Hall].
    split; [by rewrite /= Hlen|]. intros [|i] x' Hx'.
    + simpl in Hx'. simplify_eq. by exists y.
    + by apply (Hall i).
Qed.

Lemma replica_roots_total blockchains :
  ∃ roots, replica_roots blockchains = Ok roots.
Proof.
  rewrite /replica_roots. induction blockchains as [|bc blockchains [roots IH]].
  - by eexists.
  - cbn [mapM]. destruct (chain_root_total bc) as (root & ->).
    cbn [mbind result_bind]. rewrite IH. cbn [mbind result_bind]. by eexists.
Qed.

(** X17.  The roots of the replicas are computed without an exception;
    when more than half of them are [r], the replicas that the integrity
    check accepts are exactly those that [is_chain_valid()] finds valid
    and whose root is [r]. *)
Theorem integrity_check_majority (blockchains : list (Blockchain T)) :
  ∃ roots, replica_roots blockchains = Ok roots
    ∧ length roots = length blockchains
    ∧ ∀ order r,
        set_iteration roots order →
        length roots < 2 * py_count roots r →
        ∃ flags, integrity_check order blockchains = Ok flags
          ∧ length flags = length blockchains
          ∧ ∀ i bc, blockchains !! i = Some bc →
              (flags !! i = Some true ↔
               is_chain_valid bc = (true, None) ∧ chain_root bc = Ok r).
Proof.
  destruct (replica_roots_total blockchains) as (roots & Hroots).
  exists roots. split; [done|].
  destruct (mapM_Ok_lookup _ _ _ Hroots) as [Hlen Hall]. split; [done|].
  intros order r Hset Hmaj.
  pose proof (strict_majority_max roots order r Hset Hmaj) as Hwin.
  eexists. rewrite /integrity_check Hroots. cbn [mbind result_bind].
  rewrite Hwin. cbn [mbind result_bind]. split; [done|].
  split; [rewrite length_zip_with; lia|].
  intros i bc Hbc. destruct (Hall i bc Hbc) as (root & Hroot & Hcr).
  rewrite lookup_zip_with Hbc Hroot /= /replica_rejected Hcr.
  destruct (is_chain_valid_shape bc) as [Hv|(j & Hv)]; rewrite Hv /=.
  - destruct (String.eqb_spec root r) as [->|Hne]; simpl.
    + done.
    + split; [done|]. intros [_ [= ?]]. done.
  - split; [done|]. by intros [? _].
Qed.

End ReplicaProperties.

(** ** Simulated replicas *)

Lemma mapM_replicate {A B} (f : A → result B) (n : nat) (x : A) :
  0 < n → mapM f (replicate n x) = (y ← f x; Ok (replicate n y)).
Proof.
  induction n as [|n IH]; [lia|]. intros _. cbn [replicate mapM].
  destruct (f x) as [y| |] eqn:Hy; try done. cbn [mbind result_bind].
  destruct n as [|n]; [done|].
  rewrite IH; [lia|]. done.
Qed.

Lemma mapM_const {A B} (c : result B) (l : list A) :
  l ≠ [] → mapM (λ _, c) l = (y ← c; Ok (replicate (length l) y)).
Proof.
  induction l as [|x l IH]; [done|]. intros _. cbn [mapM length replicate].
  destruct c as [y| |] eqn:Hc; try done. cbn [mbind result_bind].
  destruct l as [|x' l]; [done|].
  rewrite IH //.
Qed.

Lemma py_range_length (start stop : Z) :
  length (py_range start stop) = Z.to_nat (stop - start).
Proof. by rewrite /py_range length_map length_seq. Qed.

Lemma py_range_lookup (start stop : Z) (k : nat) :
  k < Z.to_nat (stop - start) →
  py_range start stop !! k = Some (start + Z.of_nat k)%Z.
Proof.
  intros Hk. rewrite /py_range list_lookup_fmap lookup_seq_lt //.
Qed.

(** The rounds on replicas that are copies of one chain: the blocks are
    added to that chain, and the replicas are copies of the result. *)
Lemma simulate_rounds_replicate (fuel : nat) (timestamps indices : list Z)
    (calls : list (string * Z)) (n : nat) (bc : Blockchain Z) :
  0 < n →
  Forall2 (λ i call, call.1 = "Transaction " +:+ py_str i
                     ∧ timestamps !! Z.to_nat i = Some call.2) indices calls →
  simulate_rounds fuel timestamps indices (replicate n bc)
  = (bc' ← add_blocks fuel calls bc; Ok (replicate n bc')).
Proof.
  intros Hn Hcalls. revert bc.
  induction Hcalls as [|i [data ts] indices calls [Hdata Hts] _ IH]; intros bc; [done|].
  cbn [simulate_rounds add_blocks]. simpl in Hdata, Hts.
  rewrite /py_index Hts -Hdata. cbn [mbind result_bind].
  rewrite mapM_replicate //.
  destruct (add_block fuel data ts bc) as [bc'| |]; try done.
  cbn [mbind result_bind]. apply IH.
Qed.

Lemma add_blocks_built {T : Type} `{PyStr T} (fuel : nat) (calls : list (string * T))
    (bc bc' : Blockchain T) :
  built bc → add_blocks fuel calls bc = Ok bc' →
  built bc' ∧ length (chain bc') = length (chain bc) + length calls.
Proof.
  revert bc. induction calls as [|[data ts] calls IH]; intros bc Hb.
  - intros [= <-]. split; [done | simpl; lia].
  - cbn [add_blocks].
    destruct (add_block fuel data ts bc) as [bc1| |] eqn:Hadd; try done.
    cbn [mbind result_bind]. intros Hrest.
    destruct (IH bc1) as [Hb' Hlen]; [by eapply built_add | done |].
    split; [done|]. rewrite Hlen. cbn [length].
    rewrite /add_block in Hadd.
    destruct (py_last (chain bc)) as [lb| |]; try done. cbn [mbind result_bind] in Hadd.
    destruct (mine_block _ _ _) as [nb| |]; try done. cbn [mbind result_bind] in Hadd.
    injection Hadd as <-. cbn [chain]. rewrite length_app /=. lia.
Qed.

(** X18.  With at least one instance, [simulate_decentralized_blockchains]
    returns what the constructor followed by the calls
    [add_block("Transaction i", genesis_timestamp + i + 1)] on one chain
    returns, copied [num_instances] times, and it runs out of fuel when
    that chain does: the replicas are equal, each one is a chain made by
    the constructor and [add_block], with [num_blocks + 1] blocks. *)
Theorem simulate_replicas_identical (fuel : nat)
    (num_instances difficulty num_blocks genesis_timestamp : Z) :
  (0 < num_instances)%Z →
  simulate_decentralized_blockchains fuel num_instances difficulty num_blocks
    genesis_timestamp
  = (bc ← Blockchain_init fuel difficulty genesis_timestamp;
     bc ← add_blocks fuel
            (map (λ i, ("Transaction " +:+ py_str i, (genesis_timestamp + (1 + i))%Z))
                 (py_range 0 num_blocks)) bc;
     Ok (replicate (Z.to_nat num_instances) bc))
  ∧ ∀ blockchains,
      simulate_decentralized_blockchains fuel num_instances difficulty num_blocks
        genesis_timestamp = Ok blockchains →
      ∃ bc, blockchains = replicate (Z.to_nat num_instances) bc
        ∧ built bc
        ∧ length (chain bc) = S (Z.to_nat num_blocks).
Proof.
  intros Hn.
  assert (simulate_decentralized_blockchains fuel num_instances difficulty num_blocks
            genesis_timestamp
          = (bc ← Blockchain_init fuel difficulty genesis_timestamp;
             bc ← add_blocks fuel
                    (map (λ i, ("Transaction " +:+ py_str i,
                                (genesis_timestamp + (1 + i))%Z))
                         (py_range 0 num_blocks)) bc;
             Ok (replicate (Z.to_nat num_instances) bc))) as Heq.
  { rewrite /simulate_decentralized_blockchains mapM_const.
    { rewrite -length_zero_iff_nil py_range_length. lia. }
    rewrite py_range_length Z.sub_0_r.
    destruct (Blockchain_init fuel difficulty genesis_timestamp) as [bc| |]; try done.
    cbn [mbind result_bind]. apply simulate_rounds_replicate; [lia|].
    apply Forall2_fmap_r, Forall2_same_length_lookup. split; [done|].
    intros k i i' Hi Hi'. simplify_eq. split; [done|]. cbn [snd].
    pose proof (lookup_lt_Some _ _ _ Hi) as Hk. rewrite py_range_length in Hk.
    rewrite py_range_lookup // in Hi. simplify_eq.
    rewrite Z.add_0_l Nat2Z.id list_lookup_fmap py_range_lookup; [lia|]. done. }
  split; [done|]. intros blockchains. rewrite Heq.
  destruct (Blockchain_init fuel difficulty genesis_timestamp) as [bc0| |] eqn:Hinit;
    try done.
  cbn [mbind result_bind].
  destruct (add_blocks fuel _ bc0) as [bc| |] eqn:Hadd; try done.
  cbn [mbind result_bind]. intros [= <-]. exists bc. split; [done|].
  destruct (add_blocks_built _ _ _ _ (built_init _ _ _ _ Hinit) Hadd) as [Hb Hlen].
  split; [done|]. rewrite Hlen length_map py_range_length Z.sub_0_r.
  rewrite /Blockchain_init in Hinit.
  destruct (create_genesis_block _ _ _) as [g| |]; try done.
  cbn [mbind result_bind] in Hinit. injection Hinit as <-. simpl. lia.
Qed.

(** ** Further instances on the sample data *)

(** X1, instance: mining the second block of the sample chain. *)
Lemma mine_block_least_nonce_witness :
  ∃ k : nat, k ≤ 20
    ∧ nonce sample_block1 = (0 + Z.of_nat k)%Z
    ∧ sample_block1
      = with_nonce (Block_init "Transaction 0" (hash sample_genesis) 1001%Z)
          (nonce sample_block1)
    ∧ startswith (hash sample_block1) (py_repeat "0" 1) = true
    ∧ ∀ j : nat, j < k →
        startswith
          (hash (with_nonce (Block_init "Transaction 0" (hash sample_genesis) 1001%Z)
                   (0 + Z.of_nat j)))
          (py_repeat "0" 1) = false.
Proof.
  apply (mine_block_least_nonce 20 1
           (Block_init "Transaction 0" (hash sample_genesis) 1001%Z) sample_block1).
  - reflexivity.
  - vm_compute. reflexivity.
Defined.

(** X2, instance: the digest at nonce 11 meets the target. *)
Lemma mine_block_finds_nonce_witness :
  ∃ b', mine_block 11 1 (Block_init "Transaction 0" (hash sample_genesis) 1001%Z) = Ok b'
        ∧ (0 ≤ nonce b' ≤ 0 + Z.of_nat 11)%Z.
Proof.
  apply (mine_block_finds_nonce 11 1
           (Block_init "Transaction 0" (hash sample_genesis) 1001%Z) 11).
  - reflexivity.
  - vm_compute. reflexivity.
  - apply le_n.
Defined.


(** X5, instance: the first block of the sample chain with another
    payload and the digest it had. *)
Lemma is_chain_valid_ignores_genesis_witness :
  is_chain_valid
    (mkBlockchain 1
       [mkBlock 1000%Z "Forged" "0" 14 (hash sample_genesis); sample_block1; sample_block2])
  = is_chain_valid (mkBlockchain 1 [sample_genesis; sample_block1; sample_block2]).
Proof.
  apply (is_chain_valid_ignores_genesis 1 sample_genesis
           (mkBlock 1000%Z "Forged" "0" 14 (hash sample_genesis))
           [sample_block1; sample_block2]).
  reflexivity.
Defined.

(** X6, instance: the payload ["Tampered 33"] on the last block of the
    sample chain. *)
Lemma tamper_undetected_iff_witness :
  (is_chain_valid
     (mkBlockchain 1 (<[2 := update_data "Tampered 33" sample_block2]> (chain sample_chain)))
   = (true, None) ↔
   startswith (hash (update_data "Tampered 33" sample_block2)) (py_repeat "0" 1) = true
   ∧ (3 < length (chain sample_chain) →
      hash (update_data "Tampered 33" sample_block2) = hash sample_block2))
  ∧ (∀ j,
       is_chain_valid
         (mkBlockchain 1
            (<[2 := update_data "Tampered 33" sample_block2]> (chain sample_chain)))
       = (false, Some j) → j = 2 ∨ j = 3).
Proof.
  apply (tamper_undetected_iff sample_chain _ 2 "Tampered 33" sample_block2).
  - vm_compute. reflexivity.
  - apply le_S, le_n.
  - reflexivity.
  - reflexivity.
Defined.

(** X7, instance: block 2 of the sample chain, as the test corrupts it. *)
Lemma assign_tamper_outcome_witness :
  is_chain_valid
    (mkBlockchain 1
       (<[2 := assign_data_rehash "Corruption malveillante" sample_block2]>
          (chain sample_chain)))
  = (false, Some 2).
Proof.
  rewrite (assign_tamper_outcome sample_chain 2 "Corruption malveillante" sample_block2).
  - vm_compute. reflexivity.
  - apply le_S, le_n.
  - reflexivity.
  - vm_compute. reflexivity.
Defined.

(** X8, instance: the sample chain. *)
Lemma built_chain_genesis_witness :
  (∃ genesis, chain sample_chain !! 0 = Some genesis
     ∧ data genesis = "Genesis Block" ∧ previous_hash genesis = "0")
  ∧ (∀ i b, chain sample_chain !! i = Some b → (0 ≤ nonce b)%Z)
  ∧ (∀ fuel data timestamp e, add_block fuel data timestamp sample_chain ≠ Raise e).
Proof. exact (built_chain_genesis sample_chain sample_chain_built). Defined.

(** X9, instance: the call that adds the last block of the sample chain. *)
Lemma add_block_appends_witness :
  ∃ last_block new_block,
    last [sample_genesis; sample_block1] = Some last_block
    ∧ chain sample_chain = [sample_genesis; sample_block1] ++ [new_block]
    ∧ difficulty sample_chain = 1%Z
    ∧ data new_block = "Transaction 1"
    ∧ timestamp new_block = 1002%Z
    ∧ previous_hash new_block = hash last_block
    ∧ hash new_block = calculate_hash new_block
    ∧ (1 ≤ Z.of_nat (leading_zeros (hash new_block)))%Z.
Proof.
  apply (add_block_appends 20 "Transaction 1" 1002%Z
           (mkBlockchain 1 [sample_genesis; sample_block1]) sample_chain).
  vm_compute. reflexivity.
Defined.

(** X10, instance: the corruption of block 1 of the sample chain. *)
Lemma corrupt_and_remine_valid_witness :
  ∃ bc', corrupt_and_remine 300 1 "Transaction modifiee" sample_chain = Ok bc'
    ∧ is_chain_valid bc' = (true, None)
    ∧ length (chain bc') = 3
    ∧ chain bc' !! 0 = Some sample_genesis.
Proof.
  assert (∃ bc', corrupt_and_remine 300 1 "Transaction modifiee" sample_chain = Ok bc')
    as [bc' Hrun] by (vm_compute; eexists; reflexivity).
  exists bc'. split; [exact Hrun|].
  destruct (corrupt_and_remine_valid 300 "Transaction modifiee" sample_chain bc'
              sample_genesis sample_block1 eq_refl eq_refl eq_refl Hrun)
    as (Hv & _ & Hlen & Hg & _).
  split; [exact Hv|]. split; [exact Hlen | exact Hg].
Defined.

(** X12, instance: the sample chain against its first two blocks. *)
Lemma compare_blockchains_misses_extension_witness :
  compare_blockchains (mkBlockchain 1 [sample_genesis; sample_block1]) sample_chain = []
  ∧ compare_blockchains sample_chain (mkBlockchain 1 [sample_genesis; sample_block1]) = [].
Proof.
  apply (compare_blockchains_misses_extension
           (mkBlockchain 1 [sample_genesis; sample_block1]) sample_chain [sample_block2]).
  reflexivity.
Defined.


(** X15, instance: three leaves, three levels. *)
Lemma merkle_tree_height_witness :
  ∃ mt k, MerkleTree_init sample_leaves = Ok mt
    ∧ length (tree mt) = S k
    ∧ length sample_leaves ≤ 2 ^ k
    ∧ ∀ j, length sample_leaves ≤ 2 ^ j → k ≤ j.
Proof. apply (merkle_tree_height sample_leaves). discriminate. Defined.

(** X16, instance: ["a"] for two replicas out of three. *)
Lemma strict_majority_wins_witness :
  majority_root ["b"; "a"] ["a"; "b"; "a"] = Ok "a"
  ∧ majority_root_first_seen ["a"; "b"; "a"] = Some "a".
Proof.
  apply (strict_majority_wins ["a"; "b"; "a"] ["b"; "a"] "a").
  - split; [by apply (bool_decide_unpack _)|].
    intros x. rewrite !elem_of_cons !elem_of_nil. tauto.
  - apply le_n.
Defined.

(** X18, instance: two replicas of the sample chain. *)
Lemma simulate_replicas_identical_witness :
  simulate_decentralized_blockchains 20 2 1 2 1000 = Ok [sample_chain; sample_chain].
Proof.
  destruct (simulate_replicas_identical 20 2 1 2 1000 eq_refl) as [-> _].
  vm_compute. reflexivity.
Defined.

(** X17, instance: two replicas of the sample chain and a corrupted one;
    the first is accepted, the corrupted one is not. *)
Lemma integrity_check_majority_witness :
  replica_roots sample_replicas = Ok [sample_root; corrupted_root; sample_root]
  ∧ ∃ flags,
      integrity_check [corrupted_root; sample_root] sample_replicas = Ok flags
      ∧ length flags = 3
      ∧ flags !! 0 = Some true
      ∧ flags !! 1 ≠ Some true.
Proof.
  assert (replica_roots sample_replicas = Ok [sample_root; corrupted_root; sample_root])
    as Hsample by (vm_compute; reflexivity).
  split; [exact Hsample|].
  destruct (integrity_check_majority sample_replicas) as (roots & Hroots & _ & Hmaj).
  rewrite Hsample in Hroots. injection Hroots as <-.
  destruct (Hmaj [corrupted_root; sample_root] sample_root) as (flags & Hrun & Hlen & Hiff).
  - split; [by apply (bool_decide_unpack _)|].
    intros x. rewrite !elem_of_cons !elem_of_nil. tauto.
  - apply le_n.
  - exists flags. split; [exact Hrun|]. split; [exact Hlen|]. split.
    + apply (Hiff 0 sample_chain eq_refl). split; vm_compute; reflexivity.
    + intros Hacc. apply (Hiff 1 corrupted_chain eq_refl) in Hacc as [Hvalid _].
      vm_compute in Hvalid. discriminate.
Defined.

(** ** Difficulty zero or below *)

(** X19.  With a difficulty of 0 or below, down to -2^63 (below which
    ['0' * difficulty] raises [OverflowError]), the target is the empty
    string: the constructor and [add_block] return without a turn of the
    mining loop, and the blocks keep the nonce 0 and the digest the
    constructor of [Block] has computed. *)
Theorem nonpositive_difficulty_no_mining {T : Type} `{PyStr T}
    (fuel : nat) (D : Z) (ts : T) :
  (- 2 ^ 63 ≤ D ≤ 0)%Z →
  Blockchain_init fuel D ts = Ok (mkBlockchain D [Block_init "Genesis Block" "0" ts])
  ∧ ∀ (bc : Blockchain T) (new_data : string) (ts' : T) (last_block : Block T),
      difficulty bc = D → last (chain bc) = Some last_block →
      add_block fuel new_data ts' bc
      = Ok (mkBlockchain D (chain bc ++ [Block_init new_data (hash last_block) ts'])).
Proof.
  intros [_ HD].
  assert (∀ b : Block T, mine_block fuel D b = Ok b) as Hmine.
  { intros b. apply mine_block_met, startswith_zeros. lia. }
  split.
  - by rewrite /Blockchain_init /create_genesis_block Hmine.
  - intros bc new_data ts' lb Hd Hlast.
    by rewrite /add_block /py_last Hlast Hd /= Hmine.
Qed.

(** X19, instance: difficulty -1. *)
Lemma nonpositive_difficulty_no_mining_witness :
  Blockchain_init 0 (-1) 1000%Z
  = Ok (mkBlockchain (-1) [Block_init "Genesis Block" "0" 1000%Z]).
Proof.
  destruct (nonpositive_difficulty_no_mining 0 (-1) 1000%Z) as [Hinit _].
  - split; discriminate.
  - exact Hinit.
Defined.
